(** * CommandStation-EX: sensor registry and PCF8574 expander polling

    A shallow embedding of [Sensors.cpp] (the linked registry of sensor
    records, its round-robin debounce scanner) and of the PCF8574 driver
    (configuration, line write/read, the polling state machine), with the
    properties the specification states about them.

    Pointers are addresses into an explicit store; [NULL] is [None].  A
    dereference of [NULL] or of a freed address is a [Fault]; loops over the
    linked records carry a step budget taken from the size of the store and
    report [Diverge] when it runs out (a cyclic chain). *)

From Stdlib Require Import ZArith Ascii Lia.
From stdpp Require Import gmap list.

Local Open Scope Z_scope.

(** ** Results of pointer-manipulating code *)

Inductive Res (A : Type) : Type :=
  | Ok (a : A)
  | Fault
  | Diverge.
Arguments Ok {A} a.
Arguments Fault {A}.
Arguments Diverge {A}.

#[global] Instance Res_ret : MRet Res := @Ok.
#[global] Instance Res_bind : MBind Res := fun A B f m =>
  match m with
  | Ok a => f a
  | Fault => Fault
  | Diverge => Diverge
  end.

Module Sensors.

Abbreviation loc := positive.

(** [struct SensorData] and [struct Sensor] (declared in Sensors.h). *)
Record SensorData : Type := mkData { snum : Z; pin : Z; pullUp : Z }.

Record Sensor : Type := mkSensor {
  data : SensorData;
  active : bool;
  latchdelay : Z;
  nextSensor : option loc
}.

(** The store of allocated records and the two static pointers. *)
Record Registry : Type := mkRegistry {
  heap : gmap loc Sensor;
  firstSensor : option loc;
  readingSensor : option loc
}.

(** One line sent with [StringFormatter::send(stream, F("<%c %d>\n"), c, n)]. *)
Inductive Msg : Type := Send (c : ascii) (n : Z).

(** What a non-NULL [Print *stream] has received so far. *)
Abbreviation Print := (list Msg).

Inductive PinModeArg : Type := INPUT.

Inductive HwCall : Type :=
  | pinMode (p : Z) (m : PinModeArg)
  | digitalWrite (p : Z) (v : Z).

Definition LOW : Z := 0.
Definition HIGH : Z := 1.

Definition set_latchdelay (v : Z) (s : Sensor) : Sensor :=
  mkSensor (data s) (active s) v (nextSensor s).
Definition set_active (b : bool) (s : Sensor) : Sensor :=
  mkSensor (data s) b (latchdelay s) (nextSensor s).
Definition set_next (q : option loc) (s : Sensor) : Sensor :=
  mkSensor (data s) (active s) (latchdelay s) q.

Definition load (h : gmap loc Sensor) (p : loc) : Res Sensor :=
  match h !! p with
  | Some s => Ok s
  | None => Fault
  end.

Definition deref (p : option loc) : Res loc :=
  match p with
  | Some l => Ok l
  | None => Fault
  end.

Definition send (stream : option Print) (c : ascii) (n : Z) : option Print :=
  match stream with
  | Some out => Some (out ++ [Send c n])
  | None => None
  end.

(** ** Sensor::checkAll *)

(** Lines 103-119: the debounce decision on the record under the cursor,
    [sensorstate] being the value of [digitalRead(readingSensor->data.pin)].
    [latchdelay] is a byte; the increment is written with its wrap-around. *)
Definition checkOne (stream : option Print) (sensorstate : bool) (s : Sensor)
  : Sensor * option Print :=
  if Bool.eqb (negb sensorstate) (active s) then
    ((if negb (latchdelay s =? 0) then set_latchdelay 0 s else s), stream)
  else if latchdelay s <? 127 then
    (set_latchdelay ((latchdelay s + 1) mod 256) s, stream)
  else
    let s' := set_latchdelay 0 (set_active (negb sensorstate) s) in
    (s', send stream (if active s' then "Q"%char else "q"%char) (snum (data s'))).

(** The successive scans of one record: [raws] are the samples
    [digitalRead] returns each time the cursor comes round to it. *)
Fixpoint checkMany (stream : option Print) (raws : list bool) (s : Sensor)
  : Sensor * option Print :=
  match raws with
  | [] => (s, stream)
  | raw :: raws' =>
      let '(s1, stream1) := checkOne stream raw s in
      checkMany stream1 raws' s1
  end.

(** The sample agrees with the published state: [!sensorstate == active]. *)
Definition agrees (raw : bool) (s : Sensor) : Prop := negb raw = active s.

(** Every sample of [raws] disagrees with the state published when it is
    taken. *)
Fixpoint disagreeing (raws : list bool) (s : Sensor) : Prop :=
  match raws with
  | [] => True
  | raw :: raws' => ~ agrees raw s /\ disagreeing raws' (checkOne None raw s).1
  end.

(** The change event for state [b] of sensor [n]. *)
Definition change_event (b : bool) (n : Z) : Msg :=
  Send (if b then "Q"%char else "q"%char) n.

(** Lines 98-99: the record this call is going to look at. *)
Definition cursor (st : Registry) : option loc :=
  match readingSensor st with
  | None => firstSensor st
  | Some p => Some p
  end.

(** The whole function, built without S88_MEGA (the S88 bus is a separate
    module).  [digitalRead] gives the level of each pin at this call. *)
Definition checkAll (stream : option Print) (digitalRead : Z -> bool) (st : Registry)
  : Res (Registry * option Print) :=
  match firstSensor st with
  | None => Ok (st, stream)
  | Some _ =>
      p ← deref (cursor st);
      s ← load (heap st) p;
      let sensorstate := digitalRead (pin (data s)) in
      let '(s', stream') := checkOne stream sensorstate s in
      Ok (mkRegistry (<[p := s']> (heap st)) (firstSensor st) (nextSensor s'), stream')
  end.

(** ** Sensor::get *)

(** The loop of line 175, from [tt] on. *)
Fixpoint get_loop (fuel : nat) (h : gmap loc Sensor) (tt : option loc) (n : Z)
  : Res (option loc) :=
  match tt with
  | None => Ok None
  | Some p =>
      s ← load h p;
      if negb (snum (data s) =? n) then
        match fuel with
        | O => Diverge
        | S fuel' => get_loop fuel' h (nextSensor s) n
        end
      else Ok (Some p)
  end.

Definition get (n : Z) (st : Registry) : Res (option loc) :=
  get_loop (size (heap st)) (heap st) (firstSensor st) n.

(** ** Sensor::printAll *)

Fixpoint printAll_loop (fuel : nat) (h : gmap loc Sensor) (tt : option loc)
    (stream : option Print) : Res (option Print) :=
  match tt with
  | None => Ok stream
  | Some p =>
      s ← load h p;
      let stream' := send stream (if active s then "Q"%char else "q"%char) (snum (data s)) in
      match fuel with
      | O => Diverge
      | S fuel' => printAll_loop fuel' h (nextSensor s) stream'
      end
  end.

Definition printAll (stream : option Print) (st : Registry) : Res (option Print) :=
  printAll_loop (size (heap st)) (heap st) (firstSensor st) stream.

(** ** Sensor::create *)

Section Create.

(** Conversion of the [int] argument to the declared type of [data.pin]
    (the declaration is in Sensors.h). *)
Variable pin_t : Z -> Z.

(** [calloc(1, sizeof(Sensor))]: all-zero record at the address the allocator
    hands out, or [NULL] when it has none left.  The allocator's answer is an
    input of the model. *)
Definition zeroSensor : Sensor := mkSensor (mkData 0 0 0) false 0 None.

Definition calloc (alloc : option loc) (h : gmap loc Sensor)
  : gmap loc Sensor * option loc :=
  match alloc with
  | Some p => (<[p := zeroSensor]> h, Some p)
  | None => (h, None)
  end.

(** Lines 151-152: walk to the record whose [nextSensor] is [NULL]. *)
Fixpoint last_loop (fuel : nat) (h : gmap loc Sensor) (tt : loc) : Res loc :=
  s ← load h tt;
  match nextSensor s with
  | None => Ok tt
  | Some q =>
      match fuel with
      | O => Diverge
      | S fuel' => last_loop fuel' h q
      end
  end.

(** Lines 146-155: find or allocate the record. *)
Definition create_find (alloc : option loc) (snum : Z) (st : Registry)
  : Res (option loc * Registry) :=
  match firstSensor st with
  | None =>
      let '(h1, p) := calloc alloc (heap st) in
      Ok (p, mkRegistry h1 p (readingSensor st))
  | Some first =>
      t ← get snum st;
      match t with
      | Some p => Ok (Some p, st)
      | None =>
          tl ← last_loop (size (heap st)) (heap st) first;
          let '(h1, p) := calloc alloc (heap st) in
          s ← load h1 tl;
          Ok (p, mkRegistry (<[tl := set_next p s]> h1) (firstSensor st) (readingSensor st))
      end
  end.

Definition create (alloc : option loc) (snum pin pullUp : Z) (st : Registry)
  : Res (option loc * Registry * list HwCall) :=
  '(t, st1) ← create_find alloc snum st;
  match t with
  | None => Ok (None, st1, [])
  | Some p =>
      s ← load (heap st1) p;
      let s' := mkSensor (mkData snum (pin_t pin) (if pullUp =? 0 then LOW else HIGH))
                         false 0 (nextSensor s) in
      Ok (Some p,
          mkRegistry (<[p := s']> (heap st1)) (firstSensor st1) (readingSensor st1),
          [pinMode pin INPUT; digitalWrite pin pullUp])
  end.

End Create.

(** ** Sensor::remove *)

(** The loop of line 183: returns [(tt, pp)]. *)
Fixpoint remove_loop (fuel : nat) (h : gmap loc Sensor) (pp tt : option loc) (n : Z)
  : Res (option loc * option loc) :=
  match tt with
  | None => Ok (None, pp)
  | Some p =>
      s ← load h p;
      if negb (snum (data s) =? n) then
        match fuel with
        | O => Diverge
        | S fuel' => remove_loop fuel' h (Some p) (nextSensor s) n
        end
      else Ok (Some p, pp)
  end.

Definition remove (n : Z) (st : Registry) : Res (bool * Registry) :=
  '(t, pp) ← remove_loop (size (heap st)) (heap st) None (firstSensor st) n;
  match t with
  | None => Ok (false, st)
  | Some t =>
      s ← load (heap st) t;
      st1 ← (if decide (Some t = firstSensor st) then
               Ok (mkRegistry (heap st) (nextSensor s) (readingSensor st))
             else
               q ← deref pp;
               sp ← load (heap st) q;
               Ok (mkRegistry (<[q := set_next (nextSensor s) sp]> (heap st))
                              (firstSensor st) (readingSensor st)));
      s1 ← load (heap st1) t;
      let rs := if decide (readingSensor st1 = Some t) then nextSensor s1
                else readingSensor st1 in
      Ok (true, mkRegistry (delete t (heap st1)) (firstSensor st1) rs)
  end.

(** ** The registry as a sequence of records *)

(** A record without its link: where it lives and what it holds. *)
Record Entry : Type := mkEntry {
  e_loc : loc;
  e_data : SensorData;
  e_active : bool;
  e_latchdelay : Z
}.

Definition cell (e : Entry) (nxt : option loc) : Sensor :=
  mkSensor (e_data e) (e_active e) (e_latchdelay e) nxt.

Definition entry_of (l : loc) (s : Sensor) : Entry :=
  mkEntry l (data s) (active s) (latchdelay s).

Definition hd_loc (es : list Entry) (q : option loc) : option loc :=
  match es with
  | [] => q
  | e :: _ => Some (e_loc e)
  end.

Definition locs (es : list Entry) : list loc := e_loc <$> es.
Definition ids (es : list Entry) : list Z := (fun e => snum (e_data e)) <$> es.

(** The store holds the records of [es], each linked to the next, the last
    one linked to [q]. *)
Fixpoint chain (h : gmap loc Sensor) (es : list Entry) (q : option loc) : Prop :=
  match es with
  | [] => True
  | e :: es' => h !! e_loc e = Some (cell e (hd_loc es' q)) /\ chain h es' q
  end.

(** The invariant of the registry: [firstSensor] heads a NULL-terminated
    chain of distinct records with distinct ids, and the read cursor, when
    not NULL, is one of them. *)
Record wf (st : Registry) (es : list Entry) : Prop := mkWf {
  wf_first : firstSensor st = hd_loc es None;
  wf_chain : chain (heap st) es None;
  wf_locs : NoDup (locs es);
  wf_ids : NoDup (ids es);
  wf_cursor : forall p, readingSensor st = Some p -> p ∈ locs es
}.

Fixpoint find_id (n : Z) (es : list Entry) : option Entry :=
  match es with
  | [] => None
  | e :: es' => if snum (e_data e) =? n then Some e else find_id n es'
  end.

Definition last_loc (es : list Entry) (q : option loc) : option loc :=
  match last es with
  | Some e => Some (e_loc e)
  | None => q
  end.

(** The entry [create] leaves at address [p]. *)
Definition new_entry (pin_t : Z -> Z) (p : loc) (snum pin pullUp : Z) : Entry :=
  mkEntry p (mkData snum (pin_t pin) (if pullUp =? 0 then LOW else HIGH)) false 0.

(** The allocator never hands out an address that is still in use. *)
Definition fresh (alloc : option loc) (st : Registry) : Prop :=
  match alloc with
  | Some p => heap st !! p = None
  | None => True
  end.

(** Where [remove] leaves the cursor when it takes [e] out from before
    [post]: on the record after [e] if it was on [e], untouched otherwise. *)
Definition removed_cursor (st : Registry) (e : Entry) (post : list Entry) : option loc :=
  if decide (readingSensor st = Some (e_loc e)) then hd_loc post None
  else readingSensor st.

(** The line [printAll] sends for an entry. *)
Definition entry_msg (e : Entry) : Msg :=
  Send (if e_active e then "Q"%char else "q"%char) (snum (e_data e)).

(** The debounce step seen on an entry of the sequence. *)
Definition scan_entry (stream : option Print) (sensorstate : bool) (e : Entry)
  : Entry * option Print :=
  let '(s', stream') := checkOne stream sensorstate (cell e None) in
  (entry_of (e_loc e) s', stream').

(** The record a call of [checkAll] reads, if any. *)
Definition visited (st : Registry) : list loc :=
  match firstSensor st with
  | None => []
  | Some _ => match cursor st with Some p => [p] | None => [] end
  end.

(** Consecutive calls of [checkAll], one per element of [reads], with no
    other operation in between; the records read are collected in order. *)
Fixpoint scan_run (stream : option Print) (reads : list (Z -> bool)) (st : Registry)
  : Res (list loc * Registry * option Print) :=
  match reads with
  | [] => Ok ([], st, stream)
  | dr :: reads' =>
      '(st1, stream1) ← checkAll stream dr st;
      '(vs, st2, stream2) ← scan_run stream1 reads' st1;
      Ok (visited st ++ vs, st2, stream2)
  end.

(** One debounce step on each entry in turn, the k-th with the k-th reading. *)
Fixpoint scan_entries (stream : option Print) (reads : list (Z -> bool)) (es : list Entry)
  : list Entry * option Print :=
  match reads, es with
  | dr :: reads', e :: es' =>
      let '(e', stream1) := scan_entry stream (dr (pin (e_data e))) e in
      let '(es'', stream2) := scan_entries stream1 reads' es' in
      (e' :: es'', stream2)
  | _, _ => (es, stream)
  end.

(** ** The operations on the registry

    [Sensor::load] is a sequence of [create] calls and [Sensor::store] only
    reads the records, so these five cover every way the registry is
    reached. *)
Inductive Op : Type :=
  | OpCheckAll (stream : option Print) (digitalRead : Z -> bool)
  | OpPrintAll (stream : option Print)
  | OpCreate (alloc : option loc) (snum pin pullUp : Z)
  | OpGet (n : Z)
  | OpRemove (n : Z).

Definition exec (pin_t : Z -> Z) (op : Op) (st : Registry) : Res Registry :=
  match op with
  | OpCheckAll stream dr => r ← checkAll stream dr st; Ok r.1
  | OpPrintAll stream => _ ← printAll stream st; Ok st
  | OpCreate alloc n pin pullUp => r ← create pin_t alloc n pin pullUp st; Ok r.1.2
  | OpGet n => _ ← get n st; Ok st
  | OpRemove n => r ← remove n st; Ok r.2
  end.

Definition op_fresh (op : Op) (st : Registry) : Prop :=
  match op with
  | OpCreate alloc _ _ _ => fresh alloc st
  | _ => True
  end.

(** A sequence of operations, and the allocator behaving at each of them. *)
Fixpoint exec_all (pin_t : Z -> Z) (ops : list Op) (st : Registry) : Res Registry :=
  match ops with
  | [] => Ok st
  | op :: ops' => st1 ← exec pin_t op st; exec_all pin_t ops' st1
  end.

Fixpoint ops_fresh (pin_t : Z -> Z) (ops : list Op) (st : Registry) : Prop :=
  match ops with
  | [] => True
  | op :: ops' =>
      op_fresh op st /\
      forall st1, exec pin_t op st = Ok st1 -> ops_fresh pin_t ops' st1
  end.

(** The registry at start-up (lines 229-230), over any store. *)
Definition initial (h : gmap loc Sensor) : Registry := mkRegistry h None None.

(** ** Sensor::load and Sensor::store *)

(** Modelled from the spec: [EEStore] and the [EEPROM] library are not
    among the sources.  The specification has the persistent storage hold a
    count followed by that many fixed-size sensor records:
    [EEStore::pointer()] is the address of the current record slot,
    [EEStore::advance(n)] moves it on by [n], and [EEPROM.put] and
    [EEPROM.get] write and read one [SensorData] at an address. *)
Record EEStore : Type := mkEE {
  nSensors : Z;
  eeAddress : Z;
  eeprom : Z -> SensorData
}.

Definition EEPROM_put (a : Z) (d : SensorData) (ee : EEStore) : EEStore :=
  mkEE (nSensors ee) (eeAddress ee) (fun x => if x =? a then d else eeprom ee x).

Definition EEPROM_get (a : Z) (ee : EEStore) : SensorData := eeprom ee a.

Definition advance (n : Z) (ee : EEStore) : EEStore :=
  mkEE (nSensors ee) (eeAddress ee + n) (eeprom ee).

Definition set_nSensors (n : Z) (ee : EEStore) : EEStore :=
  mkEE n (eeAddress ee) (eeprom ee).

Section Persist.

Variable pin_t : Z -> Z.

(** [sizeof(tt->data)]. *)
Variable sz : Z.

(** Lines 219-224, from [tt] on. *)
Fixpoint store_loop (fuel : nat) (h : gmap loc Sensor) (tt : option loc) (ee : EEStore)
  : Res EEStore :=
  match tt with
  | None => Ok ee
  | Some p =>
      s ← load h p;
      let ee1 := advance sz (EEPROM_put (eeAddress ee) (data s) ee) in
      let ee2 := set_nSensors (nSensors ee1 + 1) ee1 in
      match fuel with
      | O => Diverge
      | S fuel' => store_loop fuel' h (nextSensor s) ee2
      end
  end.

(** Sensor::store. *)
Definition Sensor_store (st : Registry) (ee : EEStore) : Res EEStore :=
  store_loop (size (heap st)) (heap st) (firstSensor st) (set_nSensors 0 ee).

(** Lines 204-208, with [k] rounds to go; [allocs] holds, round by round,
    what the allocator would answer if [create] asked (nothing left once the
    list is used up). *)
Fixpoint load_loop (k : nat) (allocs : list (option loc)) (ee : EEStore) (st : Registry)
  : Res (EEStore * Registry * list HwCall) :=
  match k with
  | O => Ok (ee, st, [])
  | S k' =>
      let d := EEPROM_get (eeAddress ee) ee in
      r ← create pin_t (default None (head allocs)) (snum d) (pin d) (pullUp d) st;
      r' ← load_loop k' (tail allocs) (advance sz ee) r.1.2;
      Ok (r'.1.1, r'.1.2, r.2 ++ r'.2)
  end.

(** Sensor::load. *)
Definition Sensor_load (allocs : list (option loc)) (ee : EEStore) (st : Registry)
  : Res (EEStore * Registry * list HwCall) :=
  load_loop (Z.to_nat (nSensors ee)) allocs ee st.

End Persist.

(** What [Sensor_store] leaves in the storage for the records [es], slot
    after slot from the current address. *)
Fixpoint store_entries (sz : Z) (es : list Entry) (ee : EEStore) : EEStore :=
  match es with
  | [] => ee
  | e :: es' =>
      let ee1 := advance sz (EEPROM_put (eeAddress ee) (e_data e) ee) in
      store_entries sz es' (set_nSensors (nSensors ee1 + 1) ee1)
  end.

(** The records [Sensor_load] builds from stored data [ds] at the addresses
    [ps]. *)
Definition loaded (pin_t : Z -> Z) (ps : list loc) (ds : list SensorData) : list Entry :=
  zip_with (fun p d => new_entry pin_t p (snum d) (pin d) (pullUp d)) ps ds.

(** A record as [create] writes it: the pin survives the conversion and
    the pull-up is [LOW] or [HIGH]. *)
Definition canonical (pin_t : Z -> Z) (d : SensorData) : Prop :=
  pin_t (pin d) = pin d /\ (pullUp d = LOW \/ pullUp d = HIGH).

(** ** Further vocabulary for the debounce filter *)

(** The jitter counters of the sequence are within 0..127. *)
Definition bounded (es : list Entry) : Prop :=
  Forall (fun e => 0 <= e_latchdelay e <= 127) es.

(** [k] change events of sensor [n], the first for state [b], each the
    opposite of the one before. *)
Fixpoint alternating (b : bool) (n : Z) (k : nat) : list Msg :=
  match k with
  | O => []
  | S k' => change_event b n :: alternating (negb b) n k'
  end.

(** ** A small registry used to exercise the statements

    Three sensors 5, 6, 7 at addresses 1, 2, 3; the cursor is on the second. *)
Definition ex_e1 : Entry := mkEntry 1%positive (mkData 5 2 1) false 0.
Definition ex_e2 : Entry := mkEntry 2%positive (mkData 6 3 1) true 3.
Definition ex_e3 : Entry := mkEntry 3%positive (mkData 7 4 0) false 0.

Definition ex_heap : gmap loc Sensor :=
  <[1%positive := cell ex_e1 (Some 2%positive)]>
    (<[2%positive := cell ex_e2 (Some 3%positive)]>
       (<[3%positive := cell ex_e3 None]> ∅)).

Definition ex_st : Registry := mkRegistry ex_heap (Some 1%positive) (Some 2%positive).

(** The same registry with the cursor at rest. *)
Definition ex_st0 : Registry := mkRegistry ex_heap (Some 1%positive) None.

(** Its first record as it lies in the store: sensor 5, idle, settled. *)
Definition ex_s1 : Sensor := cell ex_e1 (Some 2%positive).

Definition ex_pin_t (z : Z) : Z := z mod 256.

(** A storage with nothing written yet, its pointer at address 10. *)
Definition ex_ee : EEStore := mkEE 0 10 (fun _ => mkData 0 0 0).

End Sensors.

(** * The PCF8574 expander driver *)

Module PCF8574.

(** Modelled from the spec: the enumeration of device states is declared in
    IODevice.h; the specification's data model names four lifecycle states
    (Probing, Normal, Scanning, Dormant). *)
Inductive DeviceState : Type :=
  | DEVSTATE_DORMANT
  | DEVSTATE_PROBING
  | DEVSTATE_NORMAL
  | DEVSTATE_SCANNING.

(** What [requestBlock] has been set up to do. *)
Inductive Request : Type :=
  | WriteParams (addr : Z) (bytes : list Z)
  | ReadParams (addr : Z) (len : Z).

(** The request block shared with the I2C manager: the manager owns the
    busy flag ([isBusy()]) and the completion status, the driver the
    parameters. *)
Record I2CRB : Type := mkRB {
  rb_busy : bool;
  rb_status : Z;
  rb_params : Request
}.

Record Device : Type := mkDevice {
  _firstVpin : Z;
  _nPins : Z;
  _I2CAddress : Z;
  _portInputState : Z;
  _portOutputState : Z;
  _deviceState : DeviceState;
  _lastLoopEntry : Z;
  _portTickTime : Z;
  requestBlock : I2CRB;
  inputBuffer : Z
}.

(** Calls into the I2C manager, in the order they are made. *)
Inductive BusOp : Type :=
  | I2C_write (addr : Z) (bytes : list Z)
  | I2C_read (addr : Z) (readLen : Z) (bytes : list Z)
  | I2C_queue (rq : Request).

Definition set_in (v : Z) (d : Device) : Device :=
  mkDevice (_firstVpin d) (_nPins d) (_I2CAddress d) v (_portOutputState d)
    (_deviceState d) (_lastLoopEntry d) (_portTickTime d) (requestBlock d) (inputBuffer d).
Definition set_out (v : Z) (d : Device) : Device :=
  mkDevice (_firstVpin d) (_nPins d) (_I2CAddress d) (_portInputState d) v
    (_deviceState d) (_lastLoopEntry d) (_portTickTime d) (requestBlock d) (inputBuffer d).
Definition set_state (v : DeviceState) (d : Device) : Device :=
  mkDevice (_firstVpin d) (_nPins d) (_I2CAddress d) (_portInputState d) (_portOutputState d)
    v (_lastLoopEntry d) (_portTickTime d) (requestBlock d) (inputBuffer d).
Definition set_last (v : Z) (d : Device) : Device :=
  mkDevice (_firstVpin d) (_nPins d) (_I2CAddress d) (_portInputState d) (_portOutputState d)
    (_deviceState d) v (_portTickTime d) (requestBlock d) (inputBuffer d).
Definition set_params (rq : Request) (d : Device) : Device :=
  mkDevice (_firstVpin d) (_nPins d) (_I2CAddress d) (_portInputState d) (_portOutputState d)
    (_deviceState d) (_lastLoopEntry d) (_portTickTime d)
    (mkRB (rb_busy (requestBlock d)) (rb_status (requestBlock d)) rq) (inputBuffer d).

(** Conversions to [uint8_t] and to [unsigned long]. *)
Definition byte (z : Z) : Z := z mod 256.
Definition ulong (z : Z) : Z := z mod 2 ^ 32.

Section Driver.

(** Constants of I2CManager.h and IODevice.h, and [sizeof(inputBuffer)]. *)
Variable I2C_STATUS_OK : Z.
Variable CONFIGURE_INPUT : Z.
Variable inputBuffer_size : Z.

(** The constructor body; [d] carries the members the class declaration
    initialises (state, timestamps, request block status). *)
Definition PCF8574_ctor (vpin nPins I2CAddress : Z) (d : Device) : Device :=
  mkDevice vpin (Z.min nPins 8) I2CAddress 0 0
    (_deviceState d) (_lastLoopEntry d) (_portTickTime d)
    (mkRB (rb_busy (requestBlock d)) (rb_status (requestBlock d))
          (WriteParams I2CAddress []))
    (inputBuffer d).

(** ** PCF8574::_configure

    [params] is the array the caller passes; reading [params[0]] beyond its
    end is a [Fault]. *)
Definition _configure (vpin configType paramCount : Z) (params : list Z) (d : Device)
  : Res (bool * Device) :=
  if negb (configType =? CONFIGURE_INPUT) then Ok (false, d)
  else if paramCount =? 1 then
    match params !! 0%nat with
    | None => Fault
    | Some p0 =>
        let pullup := negb (p0 =? 0) in
        if pullup then Ok (true, d) else Ok (false, d)
    end
  else Ok (false, d).

(** [uint8_t mask = 1 << pin] with [pin = vpin - _firstVpin]. *)
Definition pin_mask (d : Device) (vpin : Z) : Z :=
  byte (Z.shiftl 1 (vpin - _firstVpin d)).

(** ** PCF8574::_write *)
Definition _write (vpin value : Z) (d : Device) : Device * list BusOp :=
  let mask := pin_mask d vpin in
  let d' :=
    if negb (value =? 0) then set_out (byte (Z.lor (_portOutputState d) mask)) d
    else set_out (byte (Z.land (_portOutputState d) (Z.lnot mask))) d in
  (d', [I2C_write (_I2CAddress d') [_portOutputState d']]).

(** ** PCF8574::_read

    [reply] is what the blocking [I2CManager.read] answers when it is
    called: its status and the byte it leaves in [_portInputState]. *)
Definition _read (vpin : Z) (reply : Z * Z) (d : Device) : Z * Device * list BusOp :=
  let mask := pin_mask d vpin in
  let '(d2, ops) :=
    if Z.land (_portOutputState d) mask =? 0 then
      let d0 := set_out (byte (Z.lor (_portOutputState d) mask)) d in
      let d1 := set_in (byte reply.2) d0 in
      ((if negb (reply.1 =? I2C_STATUS_OK) then set_in 255 d1 else d1),
       [I2C_read (_I2CAddress d0) 1 [_portOutputState d0]])
    else (d, []) in
  ((if negb (Z.land (_portInputState d2) mask =? 0) then 1 else 0), d2, ops).

(** The byte [_read] leaves in [_portInputState] after its transaction. *)
Definition sampled (reply : Z * Z) : Z :=
  if reply.1 =? I2C_STATUS_OK then byte reply.2 else 255.

(** ** PCF8574::_loop *)

(** Lines 105-139: what is done about the request that has finished. *)
Definition loop_completion (d : Device) : Device * list BusOp :=
  let status := rb_status (requestBlock d) in
  match _deviceState d with
  | DEVSTATE_SCANNING =>
      if status =? I2C_STATUS_OK then
        (set_state DEVSTATE_NORMAL (set_in (inputBuffer d) d), [])
      else
        (set_state DEVSTATE_DORMANT (set_in 255 d), [])
  | DEVSTATE_PROBING =>
      if status =? I2C_STATUS_OK then
        (set_state DEVSTATE_NORMAL
           (set_params (ReadParams (_I2CAddress d) inputBuffer_size) d),
         [I2C_write (_I2CAddress d) [_portOutputState d]])
      else
        (set_state DEVSTATE_DORMANT d, [])
  | _ => (d, [])
  end.

(** The test of line 141, in [unsigned long] arithmetic. *)
Definition tick_elapsed (currentMicros : Z) (d : Device) : bool :=
  ulong (currentMicros - _lastLoopEntry d) >? _portTickTime d.

(** Lines 141-158: starting the next request. *)
Definition loop_admission (currentMicros : Z) (d : Device) : Device * list BusOp :=
  if tick_elapsed currentMicros d then
    let '(d', ops) :=
      match _deviceState d with
      | DEVSTATE_NORMAL =>
          (set_state DEVSTATE_SCANNING d, [I2C_queue (rb_params (requestBlock d))])
      | DEVSTATE_DORMANT =>
          let d1 := set_params (WriteParams (_I2CAddress d) []) d in
          (set_state DEVSTATE_PROBING d1, [I2C_queue (rb_params (requestBlock d1))])
      | _ => (d, [])
      end in
    (set_last currentMicros d', ops)
  else (d, []).

Definition _loop (currentMicros : Z) (d : Device) : Device * list BusOp :=
  if rb_busy (requestBlock d) then (d, [])
  else
    let '(d1, ops1) := loop_completion d in
    let '(d2, ops2) := loop_admission currentMicros d1 in
    (d2, ops1 ++ ops2).

(** ** Successive calls of [_loop]

    Between two calls the I2C manager may finish the queued request: each
    call comes with the clock value and with the busy flag, status and
    buffer content the manager has left. *)
Record Tick : Type := mkTick {
  t_now : Z;
  t_busy : bool;
  t_status : Z;
  t_buffer : Z
}.

Definition bus_update (t : Tick) (d : Device) : Device :=
  mkDevice (_firstVpin d) (_nPins d) (_I2CAddress d) (_portInputState d) (_portOutputState d)
    (_deviceState d) (_lastLoopEntry d) (_portTickTime d)
    (mkRB (t_busy t) (t_status t) (rb_params (requestBlock d))) (t_buffer t).

(** The bus calls of a run, each with the clock value of the call of
    [_loop] that made it. *)
Fixpoint run (ticks : list Tick) (d : Device) : Device * list (Z * BusOp) :=
  match ticks with
  | [] => (d, [])
  | t :: ticks' =>
      let '(d1, ops) := _loop (t_now t) (bus_update t d) in
      let '(d2, log) := run ticks' d1 in
      (d2, map (fun op => (t_now t, op)) ops ++ log)
  end.




End Driver.

(** The latch byte [_write] leaves when it writes [V] to an in-range line
    at offset [pin] of a latch holding [out]. *)
Definition written (out pin V : Z) : Z :=
  if V =? 0 then byte (Z.land out (Z.lnot (2 ^ pin))) else byte (Z.lor out (2 ^ pin)).

(** ** Vocabulary for runs of the poller *)

(** The request block is set up for reads whenever the state says a read
    is due or under way. *)
Definition params_ok (inputBuffer_size : Z) (d : Device) : Prop :=
  (_deviceState d = DEVSTATE_NORMAL \/ _deviceState d = DEVSTATE_SCANNING) ->
  rb_params (requestBlock d) = ReadParams (_I2CAddress d) inputBuffer_size.

(** The three bus calls the poller of device [d] may make: the latch byte
    written to its address, a zero-length write (probe) queued, a read of
    the input buffer queued. *)
Definition polite (inputBuffer_size : Z) (d : Device) (op : BusOp) : Prop :=
  op = I2C_write (_I2CAddress d) [_portOutputState d] \/
  op = I2C_queue (WriteParams (_I2CAddress d) []) \/
  op = I2C_queue (ReadParams (_I2CAddress d) inputBuffer_size).

(** The device is waiting to probe or probing. *)
Definition offline (d : Device) : Prop :=
  _deviceState d = DEVSTATE_DORMANT \/ _deviceState d = DEVSTATE_PROBING.

(** What polling never touches. *)
Definition same_port (d d' : Device) : Prop :=
  _firstVpin d' = _firstVpin d /\ _nPins d' = _nPins d /\
  _I2CAddress d' = _I2CAddress d /\ _portOutputState d' = _portOutputState d /\
  _portTickTime d' = _portTickTime d.

(** ** A device used to exercise the statements

    Status 0 is [I2C_STATUS_OK], configuration type 1 is [CONFIGURE_INPUT];
    the module sits at address 0x20 with eight lines from pin 100 on. *)
Definition ex_blank : Device :=
  mkDevice 0 0 0 0 0 DEVSTATE_DORMANT 0 500 (mkRB false 0 (WriteParams 0 [])) 0.

Definition ex_dev : Device := PCF8574_ctor 100 8 32 ex_blank.

(** The same module with a read queued at clock 1000 that has finished
    with status [st], the buffer holding 90; and with a probe queued at
    clock 1000 that has finished with status [st]. *)
Definition ex_scanning (st : Z) : Device :=
  mkDevice 100 8 32 0 8 DEVSTATE_SCANNING 1000 500 (mkRB false st (ReadParams 32 1)) 90.

Definition ex_probing (st : Z) : Device :=
  mkDevice 100 8 32 255 8 DEVSTATE_PROBING 1000 500 (mkRB false st (WriteParams 32 [])) 0.

End PCF8574.

(** * Properties of the sensor registry *)

Module SensorsProps.
Import Sensors.

(** ** The debounce filter *)

Lemma checkOne_agree stream raw s :
  agrees raw s -> checkOne stream raw s = (set_latchdelay 0 s, stream).
Proof.
  unfold agrees, checkOne. intros ->. rewrite Bool.eqb_reflx.
  destruct (Z.eqb_spec (latchdelay s) 0) as [Hz|Hz]; simpl; [|done].
  destruct s; simpl in *; by subst.
Qed.

Lemma checkOne_count stream raw s :
  ~ agrees raw s -> 0 <= latchdelay s < 127 ->
  checkOne stream raw s = (set_latchdelay (latchdelay s + 1) s, stream).
Proof.
  unfold agrees, checkOne. intros Hd Hr.
  destruct (Bool.eqb_spec (negb raw) (active s)); [done|].
  destruct (Z.ltb_spec (latchdelay s) 127); [|lia].
  by rewrite Z.mod_small by lia.
Qed.

Lemma checkOne_commit stream raw s :
  ~ agrees raw s -> 127 <= latchdelay s ->
  checkOne stream raw s
  = (set_latchdelay 0 (set_active (negb (active s)) s),
     send stream (if negb (active s) then "Q"%char else "q"%char) (snum (data s))).
Proof.
  unfold agrees, checkOne. intros Hd Hr.
  destruct (Bool.eqb_spec (negb raw) (active s)); [done|].
  destruct (Z.ltb_spec (latchdelay s) 127); [lia|].
  assert (negb raw = negb (active s)) as -> by (destruct raw, (active s); done).
  done.
Qed.

Lemma checkOne_stream_indep stream raw s :
  (checkOne stream raw s).1 = (checkOne None raw s).1.
Proof.
  unfold checkOne. destruct (Bool.eqb _ _); [done|]. by destruct (_ <? _).
Qed.

(** [j] disagreeing samples below saturation only count. *)
Lemma checkMany_count stream raws : forall s,
  disagreeing raws s ->
  0 <= latchdelay s -> latchdelay s + Z.of_nat (length raws) <= 127 ->
  checkMany stream raws s
  = (set_latchdelay (latchdelay s + Z.of_nat (length raws)) s, stream).
Proof.
  induction raws as [|raw raws IH]; intros s Hd H0 Hle.
  - simpl. rewrite Z.add_0_r. destruct s; done.
  - simpl in Hd. destruct Hd as [Hd1 Hd2]. simpl length in *.
    cbn [checkMany].
    rewrite (checkOne_count None) in Hd2 by (done || lia).
    rewrite checkOne_count by (done || lia). simpl in Hd2.
    rewrite IH; [| done | simpl; lia | simpl; lia].
    simpl. unfold set_latchdelay. simpl. do 2 f_equal. lia.
Qed.

Lemma checkMany_app stream raws1 raws2 s :
  checkMany stream (raws1 ++ raws2) s
  = checkMany (checkMany stream raws1 s).2 raws2 (checkMany stream raws1 s).1.
Proof.
  revert stream s. induction raws1 as [|raw raws1 IH]; intros stream s; simpl; [done|].
  destruct (checkOne stream raw s) as [s1 stream1]. apply IH.
Qed.

Lemma checkMany_stream_indep stream raws s :
  (checkMany stream raws s).1 = (checkMany None raws s).1.
Proof.
  revert stream s. induction raws as [|raw raws IH]; intros stream s; simpl; [done|].
  pose proof (checkOne_stream_indep stream raw s) as H1.
  destruct (checkOne stream raw s) as [s1 stream1].
  destruct (checkOne None raw s) as [s1' stream1']. simpl in H1. subst s1'.
  rewrite IH. symmetry. apply IH.
Qed.

Lemma disagreeing_app raws1 raws2 s :
  disagreeing (raws1 ++ raws2) s
  <-> disagreeing raws1 s /\ disagreeing raws2 (checkMany None raws1 s).1.
Proof.
  revert s. induction raws1 as [|raw raws1 IH]; intros s; simpl; [tauto|].
  rewrite IH. destruct (checkOne None raw s) as [s1 stream1]. simpl.
  rewrite (checkMany_stream_indep stream1). tauto.
Qed.

(** A window of 128 disagreeing samples holds exactly one commit, wherever
    the counter stood at its start. *)
Lemma checkMany_window stream raws s :
  0 <= latchdelay s <= 127 -> length raws = 128%nat -> disagreeing raws s ->
  checkMany stream raws s
  = (set_active (negb (active s)) s,
     (fun out => out ++ [change_event (negb (active s)) (snum (data s))]) <$> stream).
Proof.
  intros Hr Hlen Hd.
  remember (Z.to_nat (latchdelay s)) as k eqn:Hk.
  assert (Hk' : Z.of_nat k = latchdelay s) by lia. clear Hk.
  rewrite <- (take_drop (127 - k) raws) in Hd |- *.
  assert (Hl1 : length (take (127 - k) raws) = (127 - k)%nat)
    by (rewrite length_take; lia).
  destruct (drop (127 - k) raws) as [|rc rest] eqn:Hdrop.
  { apply (f_equal length) in Hdrop. rewrite length_drop in Hdrop. simpl in Hdrop. lia. }
  assert (Hl2 : length rest = k).
  { apply (f_equal length) in Hdrop. rewrite length_drop in Hdrop. simpl in Hdrop. lia. }
  apply disagreeing_app in Hd as [Hd1 Hd2].
  rewrite checkMany_app.
  rewrite (checkMany_count None) in Hd2 by (done || lia).
  rewrite (checkMany_count stream (take (127 - k) raws)) by (done || lia).
  rewrite Hl1 in *. cbn [fst snd] in *.
  simpl in Hd2. destruct Hd2 as [Hdc Hd3].
  cbn [checkMany].
  rewrite (checkOne_commit None) in Hd3 by (done || simpl; lia).
  rewrite checkOne_commit by (done || simpl; lia).
  cbn [fst] in Hd3.
  rewrite checkMany_count; [| done | simpl; lia | simpl; lia].
  rewrite Hl2. simpl. unfold set_latchdelay, set_active, change_event. simpl.
  do 2 f_equal. lia.
Qed.

(** ** The chain in the store *)

Lemma chain_app h es1 es2 q :
  chain h (es1 ++ es2) q <-> chain h es1 (hd_loc es2 q) /\ chain h es2 q.
Proof.
  induction es1 as [|e es1 IH]; simpl.
  - tauto.
  - rewrite IH. destruct es1; simpl; tauto.
Qed.

Lemma chain_agree h h' es q :
  (forall l, l ∈ locs es -> h' !! l = h !! l) ->
  chain h es q -> chain h' es q.
Proof.
  induction es as [|e es IH]; simpl; [done|].
  intros Hag [H1 H2]. split.
  - rewrite Hag; [done | left].
  - apply IH; [|done]. intros l Hl. apply Hag. by right.
Qed.

Lemma chain_lookup h es q e :
  chain h es q -> e ∈ es -> exists nxt, h !! e_loc e = Some (cell e nxt).
Proof.
  induction es as [|e' es IH]; simpl; intros Hc Hin.
  - by apply elem_of_nil in Hin.
  - destruct Hc as [H1 H2]. apply elem_of_cons in Hin as [->|Hin]; eauto.
Qed.

Lemma chain_dom h es q l :
  chain h es q -> l ∈ locs es -> is_Some (h !! l).
Proof.
  unfold locs. intros Hc Hin. apply list_elem_of_fmap in Hin as (e & -> & He).
  destruct (chain_lookup _ _ _ _ Hc He) as [nxt Hn]. eauto.
Qed.

Lemma chain_length h es q :
  chain h es q -> NoDup (locs es) -> (length es <= size h)%nat.
Proof.
  intros Hc Hnd.
  assert (Hsub : list_to_set (locs es) ⊆ (dom h : gset loc)).
  { intros l Hl. apply elem_of_list_to_set in Hl. apply elem_of_dom.
    by eapply chain_dom. }
  apply subseteq_size in Hsub.
  rewrite size_list_to_set in Hsub by done.
  rewrite size_dom in Hsub. unfold locs in Hsub. by rewrite length_fmap in Hsub.
Qed.

(** ** The loops *)

Lemma load_cell h e nxt :
  h !! e_loc e = Some (cell e nxt) -> load h (e_loc e) = Ok (cell e nxt).
Proof. unfold load. by intros ->. Qed.

Lemma last_loc_cons e es pp :
  last_loc (e :: es) pp = last_loc es (Some (e_loc e)).
Proof. unfold last_loc. rewrite last_cons. by destruct (last es). Qed.

Lemma last_loc_snoc es e pp : last_loc (es ++ [e]) pp = Some (e_loc e).
Proof. unfold last_loc. by rewrite last_snoc. Qed.

Lemma get_loop_spec h n es fuel :
  chain h es None -> (length es <= fuel)%nat ->
  get_loop fuel h (hd_loc es None) n = Ok (e_loc <$> find_id n es).
Proof.
  revert fuel. induction es as [|e es IH]; intros fuel Hc Hlen; simpl in *.
  - by destruct fuel.
  - destruct Hc as [H1 H2].
    assert (Hunf : get_loop fuel h (Some (e_loc e)) n =
      (s ← load h (e_loc e);
       if negb (snum (data s) =? n) then
         match fuel with
         | O => Diverge
         | S fuel' => get_loop fuel' h (nextSensor s) n
         end
       else Ok (Some (e_loc e)))) by (by destruct fuel).
    rewrite Hunf, (load_cell _ _ _ H1). simpl.
    destruct (snum (e_data e) =? n); simpl; [done|].
    destruct fuel as [|fuel]; [lia|]. apply IH; [done | lia].
Qed.

Lemma last_loop_spec h es e fuel :
  chain h (es ++ [e]) None -> (length es <= fuel)%nat ->
  forall l, hd_loc (es ++ [e]) None = Some l ->
  last_loop fuel h l = Ok (e_loc e).
Proof.
  revert fuel. induction es as [|e' es IH]; intros fuel Hc Hlen l Hl; simpl in *.
  - destruct Hc as [H1 _]. injection Hl as <-.
    destruct fuel; simpl; by rewrite (load_cell _ _ _ H1).
  - destruct Hc as [H1 H2]. injection Hl as <-.
    destruct fuel as [|fuel]; [lia|]. simpl.
    rewrite (load_cell _ _ _ H1). simpl.
    destruct (hd_loc (es ++ [e]) None) as [q|] eqn:Hq.
    + apply IH; [done | lia | done].
    + by destruct es.
Qed.

Lemma remove_loop_found h n pre e post fuel pp :
  chain h (pre ++ e :: post) None ->
  (length (pre ++ e :: post) <= fuel)%nat ->
  find_id n pre = None -> snum (e_data e) = n ->
  remove_loop fuel h pp (hd_loc (pre ++ e :: post) None) n
  = Ok (Some (e_loc e), last_loc pre pp).
Proof.
  revert fuel pp. induction pre as [|e' pre IH]; intros fuel pp Hc Hlen Hpre Hn.
  - simpl in *. destruct Hc as [H1 _].
    destruct fuel; simpl; rewrite (load_cell _ _ _ H1); simpl;
      rewrite Hn, Z.eqb_refl; done.
  - simpl in Hc, Hlen, Hpre. destruct Hc as [H1 H2].
    destruct (snum (e_data e') =? n) eqn:He'; [done|].
    destruct fuel as [|fuel]; [lia|]. simpl.
    rewrite (load_cell _ _ _ H1). simpl. rewrite He'. simpl.
    rewrite IH by (done || lia).
    by rewrite last_loc_cons.
Qed.

Lemma remove_loop_absent h n es fuel pp :
  chain h es None -> (length es <= fuel)%nat ->
  find_id n es = None ->
  remove_loop fuel h pp (hd_loc es None) n = Ok (None, last_loc es pp).
Proof.
  revert fuel pp. induction es as [|e es IH]; intros fuel pp Hc Hlen Hn.
  - by destruct fuel.
  - simpl in Hc, Hlen, Hn. destruct Hc as [H1 H2].
    destruct (snum (e_data e) =? n) eqn:He; [done|].
    destruct fuel as [|fuel]; [lia|]. simpl.
    rewrite (load_cell _ _ _ H1). simpl. rewrite He. simpl.
    rewrite IH by (done || lia).
    by rewrite last_loc_cons.
Qed.

(** ** Sequences of entries *)

Lemma locs_app es1 es2 : locs (es1 ++ es2) = locs es1 ++ locs es2.
Proof. unfold locs. apply fmap_app. Qed.

Lemma ids_app es1 es2 : ids (es1 ++ es2) = ids es1 ++ ids es2.
Proof. unfold ids. apply fmap_app. Qed.

Lemma find_id_None n es : find_id n es = None <-> n ∉ ids es.
Proof.
  induction es as [|e es IH]; simpl.
  - split; [intros _; apply not_elem_of_nil | done].
  - rewrite not_elem_of_cons, <- IH.
    destruct (Z.eqb_spec (snum (e_data e)) n); split; try done.
    + intros [? _]. congruence.
    + by intros [_ ?].
Qed.

Lemma find_id_Some n es e :
  find_id n es = Some e -> e ∈ es /\ snum (e_data e) = n.
Proof.
  induction es as [|e' es IH]; simpl; [done|].
  destruct (Z.eqb_spec (snum (e_data e')) n).
  - intros [= <-]. split; [left | done].
  - intros H. destruct (IH H). split; [by right | done].
Qed.

Lemma find_id_split n es e :
  find_id n es = Some e ->
  exists pre post, es = pre ++ e :: post /\ find_id n pre = None.
Proof.
  induction es as [|e' es IH]; simpl; [done|].
  destruct (Z.eqb_spec (snum (e_data e')) n) as [Heq|Hne].
  - intros [= <-]. by exists [], es.
  - intros H. destruct (IH H) as (pre & post & -> & Hpre).
    exists (e' :: pre), post. split; [done|]. simpl.
    by destruct (Z.eqb_spec (snum (e_data e')) n).
Qed.

Lemma find_id_app_found n pre e post :
  find_id n pre = None -> snum (e_data e) = n ->
  find_id n (pre ++ e :: post) = Some e.
Proof.
  induction pre as [|e' pre IH]; simpl; intros Hpre Hn.
  - by rewrite Hn, Z.eqb_refl.
  - destruct (snum (e_data e') =? n); [done | by apply IH].
Qed.

Lemma NoDup_ids_pre n pre e post :
  NoDup (ids (pre ++ e :: post)) -> snum (e_data e) = n -> find_id n pre = None.
Proof.
  rewrite ids_app. simpl. intros Hnd Hn. apply find_id_None.
  apply NoDup_app in Hnd as (_ & Hdisj & _). intros Hin.
  apply (Hdisj _ Hin). rewrite Hn. left.
Qed.

Lemma NoDup_middle {A} (l1 l2 : list A) (x : A) :
  NoDup (l1 ++ x :: l2) -> NoDup (l1 ++ l2) /\ (x ∉ l1) /\ (x ∉ l2).
Proof.
  intros Hnd. apply NoDup_app in Hnd as (H1 & Hd & H2).
  apply NoDup_cons in H2 as [Hx H2]. split; [|split].
  - apply NoDup_app. split; [done|]. split; [|done].
    intros y Hy Hy2. apply (Hd y Hy). by right.
  - intros Hin. apply (Hd x Hin). left.
  - done.
Qed.

(** ** Sensor::remove *)

Lemma hd_loc_in es q p : hd_loc es q = Some p -> q = Some p \/ p ∈ locs es.
Proof.
  destruct es as [|e es]; simpl; [by left|].
  intros [= <-]. right. left.
Qed.

Lemma remove_found st pre e post :
  wf st (pre ++ e :: post) ->
  exists st',
    remove (snum (e_data e)) st = Ok (true, st') /\
    wf st' (pre ++ post) /\
    heap st' !! e_loc e = None /\
    readingSensor st' = removed_cursor st e post.
Proof.
  intros [Hfirst Hchain Hlocs Hids Hcur].
  pose proof (chain_length _ _ _ Hchain Hlocs) as Hlen.
  pose proof (NoDup_ids_pre _ _ _ _ Hids eq_refl) as Hpre.
  rewrite locs_app in Hlocs. simpl in Hlocs.
  destruct (NoDup_middle _ _ _ Hlocs) as (Hnd & Hnpre & Hnpost).
  rewrite ids_app in Hids. simpl in Hids.
  destruct (NoDup_middle _ _ _ Hids) as (Hndi & _ & _).
  pose proof Hchain as Hch. apply chain_app in Hch as [Hcpre Hcpost].
  simpl in Hcpre, Hcpost. destruct Hcpost as [He Hcpost].
  unfold remove. rewrite Hfirst, (remove_loop_found _ _ _ _ _ _ _ Hchain Hlen Hpre eq_refl).
  simpl. rewrite (load_cell _ _ _ He). simpl.
  destruct pre as [|e0 pre0] using rev_ind.
  - (* the first record goes *)
    simpl. rewrite decide_True by done. simpl. rewrite (load_cell _ _ _ He). simpl.
    eexists. split; [reflexivity|]. split; [|split].
    + constructor; simpl.
      * done.
      * eapply chain_agree; [|exact Hcpost].
        intros l Hl. apply lookup_delete_ne. intros <-. done.
      * done.
      * done.
      * intros p. destruct (decide (readingSensor st = Some (e_loc e))) as [Hr|Hr].
        -- intros Hp. apply hd_loc_in in Hp as [|]; done.
        -- intros Hp. specialize (Hcur p Hp). simpl in Hcur.
           apply elem_of_cons in Hcur as [->|]; [congruence | done].
    + simpl. apply lookup_delete_eq.
    + done.
  - (* a later record goes: its predecessor [e0] is relinked *)
    clear IHpre0.
    assert (Hne : e_loc e0 <> e_loc e).
    { intros Heq. apply Hnpre. rewrite locs_app. simpl. rewrite Heq.
      apply elem_of_app. right. left. }
    assert (Hhd : hd_loc ((pre0 ++ [e0]) ++ e :: post) None <> Some (e_loc e)).
    { intros Heq. apply Hnpre. destruct pre0; simpl in Heq; injection Heq as <-; left. }
    rewrite decide_False by (intros Heq; by apply Hhd).
    rewrite last_loc_snoc. simpl.
    apply chain_app in Hcpre as [Hcpre0 Hce0]. simpl in Hce0. destruct Hce0 as [He0 _].
    rewrite (load_cell _ _ _ He0). simpl.
    unfold load. rewrite lookup_insert_ne by done. rewrite He. simpl.
    eexists. split; [reflexivity|]. split; [|split].
    + constructor; simpl.
      * by destruct pre0.
      * rewrite <- app_assoc. simpl. apply chain_app. split.
        -- eapply chain_agree; [|exact Hcpre0]. intros l Hl.
           rewrite lookup_delete_ne, lookup_insert_ne; [done | |].
           ++ intros <-. rewrite locs_app in Hnd.
              apply NoDup_app in Hnd as (Hnd & _).
              apply NoDup_app in Hnd as (_ & Hd & _). apply (Hd _ Hl). left.
           ++ intros <-. apply Hnpre. rewrite locs_app. apply elem_of_app. by left.
        -- simpl. split.
           ++ rewrite lookup_delete_ne by done. rewrite lookup_insert_eq. done.
           ++ eapply chain_agree; [|exact Hcpost]. intros l Hl.
              rewrite lookup_delete_ne, lookup_insert_ne; [done | |].
              ** intros <-. rewrite locs_app in Hnd.
                 apply NoDup_app in Hnd as (_ & Hd & _).
                 apply (Hd (e_loc e0)); [|done]. apply elem_of_app. right. left.
              ** intros <-. done.
      * by rewrite locs_app.
      * by rewrite ids_app.
      * intros p. destruct (decide (readingSensor st = Some (e_loc e))) as [Hr|Hr].
        -- intros Hp. apply hd_loc_in in Hp as [|]; [done|]. rewrite locs_app.
           apply elem_of_app. by right.
        -- intros Hp. specialize (Hcur p Hp). rewrite locs_app in Hcur. simpl in Hcur.
           rewrite locs_app. apply elem_of_app.
           apply elem_of_app in Hcur as [|Hcur]; [by left|].
           apply elem_of_cons in Hcur as [->|]; [congruence | by right].
    + simpl. apply lookup_delete_eq.
    + done.
Qed.

Lemma remove_absent st es n :
  wf st es -> find_id n es = None -> remove n st = Ok (false, st).
Proof.
  intros [Hfirst Hchain Hlocs _ _] Hn.
  pose proof (chain_length _ _ _ Hchain Hlocs) as Hlen.
  unfold remove. rewrite Hfirst.
  by rewrite (remove_loop_absent _ _ _ _ _ Hchain Hlen Hn).
Qed.

(** ** Sensor::get and Sensor::printAll *)

Lemma get_spec st es n :
  wf st es -> get n st = Ok (e_loc <$> find_id n es).
Proof.
  intros [Hfirst Hchain Hlocs _ _]. unfold get. rewrite Hfirst.
  apply get_loop_spec; [done|]. by eapply chain_length.
Qed.

Lemma send_app stream c n ms :
  (fun out => out ++ ms) <$> send stream c n
  = (fun out => out ++ Send c n :: ms) <$> stream.
Proof. destruct stream; simpl; [|done]. by rewrite <- app_assoc. Qed.

Lemma printAll_loop_spec h es fuel stream :
  chain h es None -> (length es <= fuel)%nat ->
  printAll_loop fuel h (hd_loc es None) stream
  = Ok ((fun out => out ++ map entry_msg es) <$> stream).
Proof.
  revert fuel stream. induction es as [|e es IH]; intros fuel stream Hc Hlen.
  - simpl. destruct fuel; simpl; destruct stream; simpl; by rewrite ?app_nil_r.
  - simpl in Hc, Hlen. destruct Hc as [H1 H2].
    destruct fuel as [|fuel]; [lia|]. simpl.
    rewrite (load_cell _ _ _ H1). simpl.
    rewrite IH by (done || lia). f_equal. apply send_app.
Qed.

Lemma printAll_spec st es stream :
  wf st es ->
  printAll stream st = Ok ((fun out => out ++ map entry_msg es) <$> stream).
Proof.
  intros [Hfirst Hchain Hlocs _ _]. unfold printAll. rewrite Hfirst.
  apply printAll_loop_spec; [done|]. by eapply chain_length.
Qed.

(** ** Sensor::checkAll *)

Lemma checkOne_next stream raw s : nextSensor (checkOne stream raw s).1 = nextSensor s.
Proof.
  unfold checkOne.
  destruct (Bool.eqb _ _); [by destruct (negb _)|].
  by destruct (latchdelay s <? 127).
Qed.

Lemma checkOne_data stream raw s : data (checkOne stream raw s).1 = data s.
Proof.
  unfold checkOne.
  destruct (Bool.eqb _ _); [by destruct (negb _)|].
  by destruct (latchdelay s <? 127).
Qed.

Lemma checkOne_cell stream raw e nxt :
  checkOne stream raw (cell e nxt)
  = (cell (scan_entry stream raw e).1 nxt, (scan_entry stream raw e).2).
Proof.
  unfold scan_entry, checkOne, cell, entry_of. simpl.
  destruct (Bool.eqb _ _); [by destruct (negb _)|].
  by destruct (e_latchdelay e <? 127).
Qed.

Lemma scan_entry_loc stream raw e : e_loc (scan_entry stream raw e).1 = e_loc e.
Proof. unfold scan_entry. by destruct (checkOne _ _ _). Qed.

Lemma scan_entry_data stream raw e : e_data (scan_entry stream raw e).1 = e_data e.
Proof.
  unfold scan_entry. pose proof (checkOne_data stream raw (cell e None)) as H.
  by destruct (checkOne _ _ _).
Qed.

Lemma chain_replace h pre e e' post q :
  e_loc e' = e_loc e ->
  NoDup (locs (pre ++ e :: post)) ->
  chain h (pre ++ e :: post) q ->
  chain (<[e_loc e := cell e' (hd_loc post q)]> h) (pre ++ e' :: post) q.
Proof.
  intros Hloc Hnd Hc. rewrite locs_app in Hnd. simpl in Hnd.
  destruct (NoDup_middle _ _ _ Hnd) as (_ & Hpre & Hpost).
  apply chain_app in Hc as [Hcpre [_ Hcpost]]. apply chain_app. split; [|split].
  - simpl. rewrite Hloc. eapply chain_agree; [|exact Hcpre].
    intros l Hl. apply lookup_insert_ne. by intros <-.
  - rewrite Hloc. apply lookup_insert_eq.
  - eapply chain_agree; [|exact Hcpost].
    intros l Hl. apply lookup_insert_ne. by intros <-.
Qed.

Lemma checkAll_spec st pre e post stream dr :
  wf st (pre ++ e :: post) ->
  cursor st = Some (e_loc e) ->
  let r := scan_entry stream (dr (pin (e_data e))) e in
  let st' := mkRegistry (<[e_loc e := cell r.1 (hd_loc post None)]> (heap st))
                        (firstSensor st) (hd_loc post None) in
  checkAll stream dr st = Ok (st', r.2) /\ wf st' (pre ++ r.1 :: post).
Proof.
  intros [Hfirst Hchain Hlocs Hids Hcur] Hc r st'.
  pose proof Hchain as Hch. apply chain_app in Hch as [_ [He _]].
  split.
  - unfold checkAll. rewrite Hc. simpl.
    destruct (firstSensor st) eqn:Hf.
    + simpl. rewrite (load_cell _ _ _ He). simpl.
      rewrite checkOne_cell. done.
    + rewrite Hfirst in Hf. by destruct pre.
  - subst r st'. constructor; simpl.
    + rewrite Hfirst. destruct pre; simpl; [|done]. by rewrite scan_entry_loc.
    + apply chain_replace; [apply scan_entry_loc | done | done].
    + rewrite locs_app in *. simpl. by rewrite scan_entry_loc.
    + rewrite ids_app in *. simpl. by rewrite scan_entry_data.
    + intros p Hp. rewrite locs_app. apply elem_of_app. right. right.
      apply hd_loc_in in Hp as [|]; done.
Qed.

Lemma visited_cursor st e :
  firstSensor st <> None -> cursor st = Some (e_loc e) -> visited st = [e_loc e].
Proof. unfold visited. intros Hf ->. by destruct (firstSensor st). Qed.

Lemma scan_entries_locs stream reads es :
  locs (scan_entries stream reads es).1 = locs es.
Proof.
  revert stream es. induction reads as [|dr reads IH]; intros stream es.
  - by destruct es.
  - destruct es as [|e es]; [done|]. simpl.
    pose proof (scan_entry_loc stream (dr (pin (e_data e))) e) as Hl.
    destruct (scan_entry stream (dr (pin (e_data e))) e) as [e' stream1].
    specialize (IH stream1 es).
    destruct (scan_entries stream1 reads es) as [es'' stream2].
    simpl in *. unfold locs in *. simpl. by rewrite Hl, IH.
Qed.

(** Calls made while the cursor walks the part [post] of the sequence. *)
Lemma scan_run_suffix post : forall pre st stream reads e0,
  wf st (pre ++ post) ->
  hd_loc post None = Some e0 -> cursor st = Some e0 ->
  length reads = length post ->
  let r := scan_entries stream reads post in
  exists st',
    scan_run stream reads st = Ok (locs post, st', r.2) /\
    wf st' (pre ++ r.1) /\
    readingSensor st' = None.
Proof.
  induction post as [|e post IH]; intros pre st stream reads e0 Hwf Hhd Hcur Hlen;
    [done|].
  destruct reads as [|dr reads]; [done|].
  simpl in Hhd. injection Hhd as <-.
  destruct (checkAll_spec st pre e post stream dr Hwf Hcur) as [Hcall Hwf1].
  assert (Hf : firstSensor st <> None).
  { rewrite (wf_first _ _ Hwf). by destruct pre. }
  cbn [scan_run scan_entries].
  rewrite Hcall. simpl. rewrite (visited_cursor _ _ Hf Hcur).
  destruct (scan_entry stream (dr (pin (e_data e))) e) as [e' stream1] eqn:Hse.
  simpl in Hwf1 |- *.
  destruct post as [|e2 post2].
  - destruct reads; [|done]. simpl. eexists. split; [reflexivity|]. split; done.
  - replace (pre ++ e' :: e2 :: post2) with ((pre ++ [e']) ++ e2 :: post2) in Hwf1
      by (by rewrite <- app_assoc).
    edestruct (IH (pre ++ [e']) _ stream1 reads (e_loc e2) Hwf1) as (st' & Hrun & Hwf' & Hrs);
      [done | done | simpl in *; lia |].
    destruct (scan_entries stream1 reads (e2 :: post2)) as [es'' stream2] eqn:Hes.
    simpl in Hrun, Hwf', Hrs |- *. rewrite Hrun. simpl.
    eexists. split; [reflexivity|]. split; [|done].
    by rewrite <- app_assoc in Hwf'.
Qed.

(** ** Sensor::create *)

Section CreateProps.

Variable pin_t : Z -> Z.

Lemma registry_eta st : mkRegistry (heap st) (firstSensor st) (readingSensor st) = st.
Proof. by destruct st. Qed.

Lemma create_update st pre e post alloc pin pullUp :
  wf st (pre ++ e :: post) ->
  let n := snum (e_data e) in
  let e' := new_entry pin_t (e_loc e) n pin pullUp in
  let st' := mkRegistry (<[e_loc e := cell e' (hd_loc post None)]> (heap st))
                        (firstSensor st) (readingSensor st) in
  create pin_t alloc n pin pullUp st
  = Ok (Some (e_loc e), st', [pinMode pin INPUT; digitalWrite pin pullUp]) /\
  wf st' (pre ++ e' :: post).
Proof.
  intros Hwf n e' st'. pose proof Hwf as [Hfirst Hchain Hlocs Hids Hcur].
  pose proof (NoDup_ids_pre _ _ _ _ Hids eq_refl) as Hpre.
  pose proof Hchain as Hch. apply chain_app in Hch as [_ [He _]].
  split.
  - unfold create, create_find.
    destruct (firstSensor st) eqn:Hf; [|rewrite Hfirst in Hf; by destruct pre].
    rewrite (get_spec _ _ _ Hwf), (find_id_app_found _ _ _ _ Hpre eq_refl).
    simpl. rewrite (load_cell _ _ _ He). simpl. by rewrite Hf.
  - subst st'. constructor; simpl.
    + rewrite Hfirst. by destruct pre.
    + by apply chain_replace.
    + by rewrite locs_app in *.
    + by rewrite ids_app in *.
    + intros p Hp. specialize (Hcur p Hp). by rewrite locs_app in *.
Qed.

Lemma chain_snoc h es e p s :
  h !! p = None -> NoDup (locs (es ++ [e])) -> chain h (es ++ [e]) None ->
  chain (<[e_loc e := cell e (Some p)]> (<[p := s]> h)) (es ++ [e]) (Some p).
Proof.
  intros Hp Hnd Hc. rewrite locs_app in Hnd. simpl in Hnd.
  destruct (NoDup_middle _ _ _ Hnd) as (_ & Hpre & _).
  apply chain_app in Hc as [Hcpre [He _]]. apply chain_app. split; [|split; [|done]].
  - simpl in *. eapply chain_agree; [|exact Hcpre].
    intros l Hl. rewrite !lookup_insert_ne; [done | | by intros <-].
    intros <-. destruct (chain_dom _ _ _ _ Hcpre Hl) as [x Hx]. congruence.
  - simpl. apply lookup_insert_eq.
Qed.

Lemma create_append st es p n pin pullUp :
  wf st es -> find_id n es = None -> heap st !! p = None ->
  let e' := new_entry pin_t p n pin pullUp in
  exists st',
    create pin_t (Some p) n pin pullUp st
    = Ok (Some p, st', [pinMode pin INPUT; digitalWrite pin pullUp]) /\
    wf st' (es ++ [e']) /\
    readingSensor st' = readingSensor st.
Proof.
  intros Hwf Hn Hp e'. pose proof Hwf as [Hfirst Hchain Hlocs Hids Hcur].
  assert (Hpl : p ∉ locs es).
  { intros Hin. destruct (chain_dom _ _ _ _ Hchain Hin) as [x Hx]. congruence. }
  destruct es as [|e0 es0] using rev_ind.
  - (* empty registry *)
    unfold create, create_find. rewrite Hfirst. simpl.
    unfold load. rewrite lookup_insert_eq. simpl.
    eexists. split; [reflexivity|]. split; [|done].
    constructor; simpl; try done.
    + split; [|done]. by rewrite lookup_insert_eq.
    + apply NoDup_singleton.
    + apply NoDup_singleton.
    + intros q Hq. specialize (Hcur q Hq). by apply elem_of_nil in Hcur.
  - (* append after the last record [e0] *)
    clear IHes0.
    pose proof Hchain as Hch. apply chain_app in Hch as [_ [He0 _]]. simpl in He0.
    assert (He0p : e_loc e0 <> p) by (intros Heq; rewrite Heq in He0; congruence).
    unfold create, create_find.
    destruct (firstSensor st) as [f|] eqn:Hf; [|rewrite Hfirst in Hf; by destruct es0].
    rewrite (get_spec _ _ _ Hwf), Hn. simpl.
    rewrite (last_loop_spec _ es0 e0 _ Hchain); cycle 1.
    { pose proof (chain_length _ _ _ Hchain Hlocs) as Hlen.
      rewrite length_app in Hlen. simpl in Hlen. lia. }
    { by rewrite <- Hfirst. }
    assert (Hl1 : load (<[p := zeroSensor]> (heap st)) (e_loc e0) = Ok (cell e0 None)).
    { unfold load. rewrite lookup_insert_ne by done. by rewrite He0. }
    simpl. rewrite Hl1. simpl.
    unfold load. rewrite lookup_insert_ne by done. rewrite lookup_insert_eq. simpl.
    eexists. split; [reflexivity|]. split; [|done].
    constructor; simpl.
    + rewrite Hfirst. by destruct es0.
    + apply chain_app. split.
      * simpl. eapply chain_agree; [|by apply (chain_snoc _ _ _ p zeroSensor Hp Hlocs Hchain)].
        intros l Hl. apply lookup_insert_ne. by intros <-.
      * simpl. split; [|done]. apply lookup_insert_eq.
    + rewrite locs_app. simpl. apply NoDup_app. split; [done|]. split.
      * intros x Hx Hx'. apply list_elem_of_singleton in Hx'. by subst.
      * apply NoDup_singleton.
    + rewrite ids_app. simpl. apply NoDup_app. split; [done|]. split.
      * intros x Hx Hx'. apply list_elem_of_singleton in Hx'. subst.
        by apply find_id_None in Hn.
      * apply NoDup_singleton.
    + intros q Hq. specialize (Hcur q Hq). rewrite locs_app. apply elem_of_app. by left.
Qed.

Lemma create_nomem st es n pin pullUp :
  wf st es -> find_id n es = None ->
  create pin_t None n pin pullUp st = Ok (None, st, []).
Proof.
  intros Hwf Hn. pose proof Hwf as [Hfirst Hchain Hlocs Hids Hcur].
  destruct es as [|e0 es0] using rev_ind.
  - unfold create, create_find. rewrite Hfirst. simpl.
    simpl in Hfirst. by rewrite <- Hfirst, registry_eta.
  - clear IHes0.
    pose proof Hchain as Hch. apply chain_app in Hch as [_ [He0 _]]. simpl in He0.
    unfold create, create_find.
    destruct (firstSensor st) as [f|] eqn:Hf; [|rewrite Hfirst in Hf; by destruct es0].
    rewrite (get_spec _ _ _ Hwf), Hn. simpl.
    rewrite (last_loop_spec _ es0 e0 _ Hchain); cycle 1.
    { pose proof (chain_length _ _ _ Hchain Hlocs) as Hlen.
      rewrite length_app in Hlen. simpl in Hlen. lia. }
    { by rewrite <- Hfirst. }
    simpl. rewrite (load_cell _ _ _ He0). simpl.
    rewrite insert_id by done. by rewrite <- Hf, registry_eta.
Qed.

Lemma create_again st pre e post alloc n pin pullUp :
  wf st (pre ++ e :: post) ->
  e = new_entry pin_t (e_loc e) n pin pullUp ->
  create pin_t alloc n pin pullUp st
  = Ok (Some (e_loc e), st, [pinMode pin INPUT; digitalWrite pin pullUp]).
Proof.
  intros Hwf He.
  destruct (create_update st pre e post alloc pin pullUp Hwf) as [Hc _].
  assert (Hn : snum (e_data e) = n) by (by rewrite He).
  rewrite Hn, <- He in Hc. rewrite Hc. do 3 f_equal.
  pose proof (wf_chain _ _ Hwf) as Hch. apply chain_app in Hch as [_ [Hl _]].
  rewrite insert_id by done. apply registry_eta.
Qed.

Lemma create_null st es alloc n pin pullUp st' hw :
  wf st es -> fresh alloc st ->
  create pin_t alloc n pin pullUp st = Ok (None, st', hw) ->
  alloc = None /\ n ∉ ids es.
Proof.
  intros Hwf Hfresh Hc. destruct (find_id n es) as [e|] eqn:Hfind.
  - destruct (find_id_split _ _ _ Hfind) as (pre & post & -> & _).
    destruct (find_id_Some _ _ _ Hfind) as [_ <-].
    destruct (create_update st pre e post alloc pin pullUp Hwf) as [Hc' _].
    rewrite Hc' in Hc. discriminate.
  - destruct alloc as [p|].
    + destruct (create_append st es p n pin pullUp Hwf Hfind Hfresh) as (st2 & Hc' & _).
      rewrite Hc' in Hc. discriminate.
    + split; [done|]. by apply find_id_None.
Qed.

Lemma create_stores alloc n pin pullUp st t st' hw :
  create pin_t alloc n pin pullUp st = Ok (Some t, st', hw) ->
  exists s, heap st' !! t = Some s /\ active s = false /\ latchdelay s = 0 /\
            data s = mkData n (pin_t pin) (if pullUp =? 0 then LOW else HIGH).
Proof.
  unfold create. destruct (create_find alloc n st) as [[[p|] st1]| |]; simpl; try done.
  destruct (load (heap st1) p) as [s| |]; simpl; try done.
  intros [= <- <- <-]. simpl. eexists. split; [apply lookup_insert_eq|]. done.
Qed.

End CreateProps.

(** With a single record every call scans it: the calls of [checkAll] are
    the successive debounce steps of that record. *)
Lemma scan_run_single reads : forall st e stream,
  wf st [e] ->
  let r := checkMany stream (map (fun dr : Z -> bool => dr (pin (e_data e))) reads)
                     (cell e None) in
  exists st',
    scan_run stream reads st = Ok (repeat (e_loc e) (length reads), st', r.2) /\
    wf st' [entry_of (e_loc e) r.1].
Proof.
  induction reads as [|dr reads IH]; intros st e stream Hwf.
  - simpl. exists st. split; [done|]. by destruct e.
  - assert (Hc : cursor st = Some (e_loc e)).
    { unfold cursor. destruct (readingSensor st) as [p|] eqn:Hr.
      - apply (wf_cursor _ _ Hwf) in Hr. apply list_elem_of_singleton in Hr. by subst.
      - apply (wf_first _ _ Hwf). }
    destruct (checkAll_spec st [] e [] stream dr Hwf Hc) as [Hcall Hwf1].
    assert (Hf : firstSensor st <> None) by (by rewrite (wf_first _ _ Hwf)).
    cbn [scan_run map checkMany length repeat].
    rewrite Hcall. simpl. rewrite (visited_cursor _ _ Hf Hc).
    rewrite checkOne_cell.
    pose proof (scan_entry_loc stream (dr (pin (e_data e))) e) as Hl.
    pose proof (scan_entry_data stream (dr (pin (e_data e))) e) as Hd.
    destruct (scan_entry stream (dr (pin (e_data e))) e) as [e1 stream1].
    simpl in Hwf1, Hl, Hd |- *.
    destruct (IH _ e1 stream1 Hwf1) as (st' & Hrun & Hwf').
    rewrite Hd, Hl in Hrun, Hwf'. rewrite Hrun. simpl.
    exists st'. split; [done|]. exact Hwf'.
Qed.

(** ** Every operation keeps the invariant *)

Lemma wf_cursor_split st es :
  wf st es -> es <> [] ->
  exists pre e post, es = pre ++ e :: post /\ cursor st = Some (e_loc e).
Proof.
  intros [Hfirst _ _ _ Hcur] Hne. unfold cursor.
  destruct (readingSensor st) as [p|] eqn:Hr.
  - specialize (Hcur p eq_refl). apply list_elem_of_fmap in Hcur as (e & -> & He).
    apply list_elem_of_split in He as (pre & post & ->). by exists pre, e, post.
  - destruct es as [|e es]; [done|]. exists [], e, es. by rewrite Hfirst.
Qed.

Lemma wf_empty_checkAll st stream dr :
  wf st [] -> checkAll stream dr st = Ok (st, stream).
Proof. intros [Hfirst _ _ _ _]. unfold checkAll. by rewrite Hfirst. Qed.

Lemma exec_wf pin_t op st es :
  wf st es -> op_fresh op st ->
  exists st' es', exec pin_t op st = Ok st' /\ wf st' es'.
Proof.
  intros Hwf Hfresh. destruct op as [stream dr|stream|alloc n pin pullUp|n|n]; simpl.
  - destruct es as [|e0 es0].
    + rewrite (wf_empty_checkAll _ _ _ Hwf). simpl. by exists st, [].
    + destruct (wf_cursor_split st (e0 :: es0) Hwf) as (pre & e & post & Hes & Hc); [done|].
      rewrite Hes in Hwf.
      destruct (checkAll_spec st pre e post stream dr Hwf Hc) as [-> Hwf'].
      simpl. eauto.
  - rewrite (printAll_spec _ _ _ Hwf). simpl. eauto.
  - destruct (find_id n es) as [e|] eqn:Hfind.
    + destruct (find_id_split _ _ _ Hfind) as (pre & post & -> & _).
      destruct (find_id_Some _ _ _ Hfind) as [_ <-].
      destruct (create_update pin_t st pre e post alloc pin pullUp Hwf) as [-> Hwf'].
      simpl. eauto.
    + destruct alloc as [p|].
      * destruct (create_append pin_t st es p n pin pullUp Hwf Hfind Hfresh)
          as (st' & -> & Hwf' & _).
        simpl. eauto.
      * rewrite (create_nomem pin_t st es n pin pullUp Hwf Hfind). simpl. eauto.
  - rewrite (get_spec _ _ _ Hwf). simpl. eauto.
  - destruct (find_id n es) as [e|] eqn:Hfind.
    + destruct (find_id_split _ _ _ Hfind) as (pre & post & -> & _).
      destruct (find_id_Some _ _ _ Hfind) as [_ <-].
      destruct (remove_found st pre e post Hwf) as (st' & -> & Hwf' & _).
      simpl. eauto.
    + rewrite (remove_absent _ _ _ Hwf Hfind). simpl. eauto.
Qed.

Lemma wf_initial h : wf (initial h) [].
Proof. constructor; try done; apply NoDup_nil_2. Qed.

Lemma exec_all_wf pin_t ops : forall st es,
  wf st es -> ops_fresh pin_t ops st ->
  exists st' es', exec_all pin_t ops st = Ok st' /\ wf st' es'.
Proof.
  induction ops as [|op ops IH]; intros st es Hwf Hfresh; simpl.
  - by exists st, es.
  - destruct Hfresh as [Hop Hrest].
    destruct (exec_wf pin_t op st es Hwf Hop) as (st1 & es1 & He & Hwf1).
    rewrite He. simpl. apply (IH st1 es1 Hwf1). by apply Hrest.
Qed.

Lemma wf_cursor_live st es p :
  wf st es -> readingSensor st = Some p -> p ∈ locs es /\ is_Some (heap st !! p).
Proof.
  intros Hwf Hp. pose proof (wf_cursor _ _ Hwf p Hp) as Hin.
  split; [done|]. eapply chain_dom; [apply (wf_chain _ _ Hwf) | done].
Qed.

(** ** The statements of the specification *)

Lemma ex_chain : chain ex_heap [ex_e1; ex_e2; ex_e3] None.
Proof. repeat split. Qed.

Lemma ex_NoDup_locs : NoDup (locs [ex_e1; ex_e2; ex_e3]).
Proof. apply (bool_decide_unpack _). by vm_compute. Qed.

Lemma ex_NoDup_ids : NoDup (ids [ex_e1; ex_e2; ex_e3]).
Proof. apply (bool_decide_unpack _). by vm_compute. Qed.

Lemma ex_wf : wf ex_st [ex_e1; ex_e2; ex_e3].
Proof.
  constructor; [done | apply ex_chain | apply ex_NoDup_locs | apply ex_NoDup_ids |].
  intros p [= <-]. apply (bool_decide_unpack _). by vm_compute.
Qed.

Lemma ex_wf0 : wf ex_st0 [ex_e1; ex_e2; ex_e3].
Proof.
  constructor; [done | apply ex_chain | apply ex_NoDup_locs | apply ex_NoDup_ids |].
  intros p [=].
Qed.

Lemma checkAll_checkOne stream dr st p s :
  firstSensor st <> None -> cursor st = Some p -> heap st !! p = Some s ->
  let r := checkOne stream (dr (pin (data s))) s in
  checkAll stream dr st
  = Ok (mkRegistry (<[p := r.1]> (heap st)) (firstSensor st) (nextSensor s), r.2).
Proof.
  intros Hf Hc Hs r. unfold checkAll. destruct (firstSensor st); [|done].
  rewrite Hc. simpl. unfold load. rewrite Hs. simpl. subst r.
  pose proof (checkOne_next stream (dr (pin (data s))) s) as Hn.
  destruct (checkOne stream (dr (pin (data s))) s) as [s' stream']. simpl in *.
  by rewrite Hn.
Qed.

(** C1.  The record [s] under the cursor is the one [checkAll] scans, with
    [checkOne] as its debounce step.  On that record: a sample that agrees
    with the published [active] state resets the jitter counter to 0 and
    sends nothing; a single-tick glitch (a disagreeing sample, then an
    agreeing one, the counter being below 127) sends nothing and leaves
    [active] as it was; with the counter in its range 0..127, any 128
    consecutive disagreeing samples flip [active] and send exactly one
    change event, tagged with the new state and the sensor id, to the sink
    when there is one; and from a settled record (counter 0) the first 127
    of them only count up to 127, the one that follows flips [active],
    resets the counter to 0 and sends that event. *)
Theorem C1_debounce (stream : option Print) (s : Sensor) :
  (forall st p dr,
      firstSensor st <> None -> cursor st = Some p -> heap st !! p = Some s ->
      let r := checkOne stream (dr (pin (data s))) s in
      checkAll stream dr st
      = Ok (mkRegistry (<[p := r.1]> (heap st)) (firstSensor st) (nextSensor s), r.2)) /\
  (forall raw, agrees raw s ->
      checkOne stream raw s = (set_latchdelay 0 s, stream)) /\
  (forall raw1 raw2,
      latchdelay s < 127 -> ~ agrees raw1 s -> agrees raw2 s ->
      checkMany stream [raw1; raw2] s = (set_latchdelay 0 s, stream)) /\
  (forall raws,
      0 <= latchdelay s <= 127 -> length raws = 128%nat -> disagreeing raws s ->
      checkMany stream raws s
      = (set_active (negb (active s)) s,
         (fun out => out ++ [change_event (negb (active s)) (snum (data s))]) <$> stream)) /\
  (forall raws raw,
      latchdelay s = 0 -> length raws = 127%nat -> disagreeing (raws ++ [raw]) s ->
      checkMany stream raws s = (set_latchdelay 127 s, stream) /\
      checkOne stream raw (set_latchdelay 127 s)
      = (set_latchdelay 0 (set_active (negb (active s)) s),
         (fun out => out ++ [change_event (negb (active s)) (snum (data s))]) <$> stream)).
Proof.
  split; [|split; [|split; [|split]]].
  - intros st p dr. apply checkAll_checkOne.
  - intros raw. apply checkOne_agree.
  - intros raw1 raw2 Hlt Hd Ha. cbn [checkMany].
    assert (H1 : checkOne stream raw1 s
                 = (set_latchdelay ((latchdelay s + 1) mod 256) s, stream)).
    { unfold checkOne, agrees in *.
      destruct (Bool.eqb_spec (negb raw1) (active s)); [done|].
      by destruct (Z.ltb_spec (latchdelay s) 127); [|lia]. }
    rewrite H1. by rewrite checkOne_agree.
  - intros raws. apply checkMany_window.
  - intros raws raw Hz Hlen Hd. apply disagreeing_app in Hd as [Hd1 Hd2].
    rewrite (checkMany_count None) in Hd2 by (done || lia).
    rewrite Hlen, Hz in Hd2. simpl in Hd2. destruct Hd2 as [Hd2 _].
    split.
    + rewrite checkMany_count by (done || lia). by rewrite Hlen, Hz.
    + rewrite checkOne_commit by (done || simpl; lia). simpl.
      unfold change_event. by destruct stream.
Qed.

Lemma C1_debounce_witness :
  checkAll (Some []) (fun _ => true) ex_st0
  = Ok (mkRegistry (<[1%positive := ex_s1]> ex_heap) (Some 1%positive) (Some 2%positive),
        Some []) /\
  checkOne (Some []) true ex_s1 = (ex_s1, Some []) /\
  checkMany (Some []) [false; true] ex_s1 = (ex_s1, Some []) /\
  checkMany (Some []) (repeat false 128) ex_s1
  = (set_active true ex_s1, Some [change_event true 5]) /\
  checkMany (Some []) (repeat false 127) ex_s1 = (set_latchdelay 127 ex_s1, Some []) /\
  checkOne (Some []) false (set_latchdelay 127 ex_s1)
  = (set_active true ex_s1, Some [change_event true 5]).
Proof.
  destruct (C1_debounce (Some []) ex_s1) as (Hscan & Hagree & Hglitch & Hwin & Hsettled).
  split; [|split; [|split; [|split]]].
  - apply (Hscan ex_st0 1%positive (fun _ => true)); [discriminate | reflexivity | reflexivity].
  - apply (Hagree true). reflexivity.
  - apply (Hglitch false true); [simpl; lia | discriminate | reflexivity].
  - apply (Hwin (repeat false 128)); [simpl; lia | reflexivity |].
    cbv. repeat (split; [discriminate|]). exact I.
  - apply (Hsettled (repeat false 127) false); [reflexivity | reflexivity |].
    cbv. repeat (split; [discriminate|]). exact I.
Defined.

(** The scenario of the specification: sensor 5 is created in an empty
    registry and its line reads low (triggered) for 128 scans; one event
    [<Q 5>] comes out and the sensor ends up active. *)
Example sensor_end_to_end :
  exists st1 st2 hw,
    create ex_pin_t (Some 1%positive) 5 2 1 (mkRegistry ∅ None None)
    = Ok (Some 1%positive, st1, hw) /\
    scan_run (Some []) (repeat (fun _ => false) 128) st1
    = Ok (repeat 1%positive 128, st2, Some [Send "Q"%char 5]) /\
    heap st2 !! 1%positive = Some (mkSensor (mkData 5 2 1) true 0 None).
Proof.
  assert (Hwf0 : wf (mkRegistry ∅ None None) []).
  { constructor; try done; apply NoDup_nil_2. }
  destruct (create_append ex_pin_t _ [] 1%positive 5 2 1 Hwf0 eq_refl eq_refl)
    as (st1 & Hc & Hwf1 & _).
  destruct (scan_run_single (repeat (fun _ => false) 128) st1
              (new_entry ex_pin_t 1%positive 5 2 1) (Some []) Hwf1)
    as (st2 & Hrun & Hwf2).
  assert (Hm : checkMany (Some [])
                 (map (fun dr : Z -> bool => dr (pin (e_data (new_entry ex_pin_t 1%positive 5 2 1))))
                      (repeat (fun _ => false) 128))
                 (cell (new_entry ex_pin_t 1%positive 5 2 1) None)
               = (mkSensor (mkData 5 2 1) true 0 None, Some [Send "Q"%char 5]))
    by (vm_compute; reflexivity).
  rewrite Hm in Hrun, Hwf2. rewrite repeat_length in Hrun.
  exists st1, st2, [pinMode 2 INPUT; digitalWrite 2 1].
  split; [exact Hc|]. split; [exact Hrun|].
  destruct Hwf2 as [_ [Hcell _] _ _ _]. exact Hcell.
Qed.

(** C3.  In a well-formed registry, [remove] of the id of a record [e]
    unlinks and frees that record, every other record keeping its place; a
    cursor that referenced [e] is moved to the record after it (NULL when [e]
    was the tail), any other cursor is left alone.  [remove] of an id that
    is not there returns false and changes nothing.  Every operation takes
    a well-formed registry to a well-formed one, so the cursor, when not
    NULL, always references a record of the sequence that is still in the
    store; the same after any sequence of operations, and the registry as
    it is at start-up is well-formed. *)
Theorem C3_remove_cursor (pin_t : Z -> Z) (st : Registry) (es : list Entry) :
  wf st es ->
  (forall pre e post, es = pre ++ e :: post ->
     exists st',
       remove (snum (e_data e)) st = Ok (true, st') /\
       wf st' (pre ++ post) /\
       heap st' !! e_loc e = None /\
       readingSensor st' = removed_cursor st e post) /\
  (forall n, n ∉ ids es -> remove n st = Ok (false, st)) /\
  (forall op, op_fresh op st ->
     exists st' es',
       exec pin_t op st = Ok st' /\ wf st' es' /\
       forall p, readingSensor st' = Some p ->
                 p ∈ locs es' /\ is_Some (heap st' !! p)) /\
  (forall ops, ops_fresh pin_t ops st ->
     exists st' es',
       exec_all pin_t ops st = Ok st' /\ wf st' es' /\
       forall p, readingSensor st' = Some p ->
                 p ∈ locs es' /\ is_Some (heap st' !! p)) /\
  (forall h, wf (initial h) []).
Proof.
  intros Hwf. split; [|split; [|split; [|split]]]; cycle 3.
  { intros ops Hops.
    destruct (exec_all_wf pin_t ops st es Hwf Hops) as (st' & es' & He & Hwf').
    exists st', es'. split; [done|]. split; [done|].
    intros p Hp. by eapply wf_cursor_live. }
  { apply wf_initial. }
  - intros pre e post ->. by apply remove_found.
  - intros n Hn. eapply remove_absent; [done|]. by apply find_id_None.
  - intros op Hop. destruct (exec_wf pin_t op st es Hwf Hop) as (st' & es' & He & Hwf').
    exists st', es'. split; [done|]. split; [done|].
    intros p Hp. by eapply wf_cursor_live.
Qed.

Lemma C3_remove_cursor_witness :
  (exists st',
     remove 6 ex_st = Ok (true, st') /\
     wf st' [ex_e1; ex_e3] /\
     heap st' !! 2%positive = None /\
     readingSensor st' = Some 3%positive) /\
  remove 9 ex_st = Ok (false, ex_st) /\
  (exists st' es',
     exec ex_pin_t (OpCreate (Some 4%positive) 8 300 1) ex_st = Ok st' /\ wf st' es' /\
     forall p, readingSensor st' = Some p ->
               p ∈ locs es' /\ is_Some (heap st' !! p)).
Proof.
  destruct (C3_remove_cursor ex_pin_t ex_st [ex_e1; ex_e2; ex_e3] ex_wf)
    as (Hfound & Habsent & Hop & _ & _).
  split; [|split].
  - apply (Hfound [ex_e1] ex_e2 [ex_e3]). reflexivity.
  - apply (Habsent 9). apply (bool_decide_unpack _). vm_compute. exact I.
  - apply (Hop (OpCreate (Some 4%positive) 8 300 1)). reflexivity.
Defined.

(** C4.  In a registry of N >= 1 records, a call of [checkAll] reads exactly
    one record, the one under the cursor, applies the debounce step to it,
    leaves every other record of the store as it was and moves the cursor to
    the next record (NULL after the last).  Starting from the head, N
    consecutive calls read the N records once each, in sequence order, and
    leave the cursor at rest. *)
Theorem C4_round_robin (stream : option Print) (st : Registry) (es : list Entry) :
  wf st es -> es <> [] ->
  (forall dr, exists pre e post,
      es = pre ++ e :: post /\
      visited st = [e_loc e] /\
      let r := scan_entry stream (dr (pin (e_data e))) e in
      checkAll stream dr st
      = Ok (mkRegistry (<[e_loc e := cell r.1 (hd_loc post None)]> (heap st))
                       (firstSensor st) (hd_loc post None), r.2) /\
      wf (mkRegistry (<[e_loc e := cell r.1 (hd_loc post None)]> (heap st))
                     (firstSensor st) (hd_loc post None))
         (pre ++ r.1 :: post)) /\
  (forall reads,
      cursor st = firstSensor st -> length reads = length es ->
      exists st',
        scan_run stream reads st
        = Ok (locs es, st', (scan_entries stream reads es).2) /\
        NoDup (locs es) /\
        wf st' (scan_entries stream reads es).1 /\
        readingSensor st' = None).
Proof.
  intros Hwf Hne. split.
  - intros dr. destruct (wf_cursor_split st es Hwf Hne) as (pre & e & post & -> & Hc).
    exists pre, e, post. split; [done|]. split.
    + apply visited_cursor; [|done]. rewrite (wf_first _ _ Hwf). by destruct pre.
    + by apply checkAll_spec.
  - intros reads Hc Hlen.
    destruct es as [|e0 es0]; [done|].
    rewrite (wf_first _ _ Hwf) in Hc. simpl in Hc.
    destruct (scan_run_suffix (e0 :: es0) [] st stream reads (e_loc e0) Hwf eq_refl Hc Hlen)
      as (st' & Hrun & Hwf' & Hrs).
    exists st'. split; [done|]. split; [apply (wf_locs _ _ Hwf)|]. by split.
Qed.

Lemma C4_round_robin_witness :
  (exists pre e post,
      [ex_e1; ex_e2; ex_e3] = pre ++ e :: post /\
      visited ex_st0 = [e_loc e] /\
      let r := scan_entry None true e in
      checkAll None (fun _ => true) ex_st0
      = Ok (mkRegistry (<[e_loc e := cell r.1 (hd_loc post None)]> (heap ex_st0))
                       (firstSensor ex_st0) (hd_loc post None), r.2) /\
      wf (mkRegistry (<[e_loc e := cell r.1 (hd_loc post None)]> (heap ex_st0))
                     (firstSensor ex_st0) (hd_loc post None))
         (pre ++ r.1 :: post)) /\
  (exists st',
      scan_run None [fun _ => true; fun _ => true; fun _ => true] ex_st0
      = Ok ([1%positive; 2%positive; 3%positive], st',
            (scan_entries None [fun _ => true; fun _ => true; fun _ => true]
               [ex_e1; ex_e2; ex_e3]).2) /\
      NoDup [1%positive; 2%positive; 3%positive] /\
      wf st' (scan_entries None [fun _ => true; fun _ => true; fun _ => true]
                [ex_e1; ex_e2; ex_e3]).1 /\
      readingSensor st' = None).
Proof.
  destruct (C4_round_robin None ex_st0 [ex_e1; ex_e2; ex_e3] ex_wf0) as (Hone & Hall);
    [discriminate|].
  split.
  - apply (Hone (fun _ => true)).
  - apply (Hall [fun _ => true; fun _ => true; fun _ => true]); reflexivity.
Defined.

(** C8.  In a well-formed registry, with an allocator that hands out only
    unused addresses: [create] for an id that is there rewrites that record
    in place, at the same address and the same position, every other record
    untouched; for an id that is not there it links a new record after the
    tail, or, when the allocator has nothing left, returns NULL and leaves
    the registry as it was.  A second [create] with the same id, pin and
    pull-up returns the same record and leaves the registry exactly as the
    first left it.  NULL is returned only when the allocator is exhausted. *)
Theorem C8_upsert (pin_t : Z -> Z) (st : Registry) (es : list Entry)
    (alloc : option loc) (n pin pullUp : Z) :
  wf st es -> fresh alloc st ->
  let hw := [pinMode pin INPUT; digitalWrite pin pullUp] in
  (forall pre e post, es = pre ++ e :: post -> snum (e_data e) = n ->
     exists st',
       create pin_t alloc n pin pullUp st = Ok (Some (e_loc e), st', hw) /\
       wf st' (pre ++ new_entry pin_t (e_loc e) n pin pullUp :: post) /\
       forall alloc2,
         create pin_t alloc2 n pin pullUp st' = Ok (Some (e_loc e), st', hw)) /\
  (forall p, n ∉ ids es -> alloc = Some p ->
     exists st',
       create pin_t alloc n pin pullUp st = Ok (Some p, st', hw) /\
       wf st' (es ++ [new_entry pin_t p n pin pullUp]) /\
       forall alloc2,
         create pin_t alloc2 n pin pullUp st' = Ok (Some p, st', hw)) /\
  (n ∉ ids es -> alloc = None ->
     create pin_t alloc n pin pullUp st = Ok (None, st, [])) /\
  (forall st' hw',
     create pin_t alloc n pin pullUp st = Ok (None, st', hw') -> alloc = None).
Proof.
  intros Hwf Hfresh hw. split; [|split; [|split]].
  - intros pre e post -> <-.
    destruct (create_update pin_t st pre e post alloc pin pullUp Hwf) as [Hc Hwf'].
    eexists. split; [exact Hc|]. split; [exact Hwf'|].
    intros alloc2.
    exact (create_again pin_t _ pre (new_entry pin_t (e_loc e) (snum (e_data e)) pin pullUp)
             post alloc2 (snum (e_data e)) pin pullUp Hwf' eq_refl).
  - intros p Hn ->. apply find_id_None in Hn.
    destruct (create_append pin_t st es p n pin pullUp Hwf Hn Hfresh) as (st' & Hc & Hwf' & _).
    exists st'. split; [done|]. split; [done|].
    intros alloc2.
    exact (create_again pin_t _ es (new_entry pin_t p n pin pullUp) [] alloc2 n pin pullUp
             Hwf' eq_refl).
  - intros Hn ->. apply find_id_None in Hn. by eapply create_nomem.
  - intros st' hw' Hc. by destruct (create_null pin_t st es alloc n pin pullUp st' hw' Hwf Hfresh Hc).
Qed.

Lemma C8_upsert_witness :
  (exists st',
     create ex_pin_t (Some 4%positive) 6 300 1 ex_st
     = Ok (Some 2%positive, st', [pinMode 300 INPUT; digitalWrite 300 1]) /\
     wf st' [ex_e1; new_entry ex_pin_t 2%positive 6 300 1; ex_e3] /\
     forall alloc2,
       create ex_pin_t alloc2 6 300 1 st'
       = Ok (Some 2%positive, st', [pinMode 300 INPUT; digitalWrite 300 1])) /\
  (exists st',
     create ex_pin_t (Some 4%positive) 8 9 0 ex_st
     = Ok (Some 4%positive, st', [pinMode 9 INPUT; digitalWrite 9 0]) /\
     wf st' ([ex_e1; ex_e2; ex_e3] ++ [new_entry ex_pin_t 4%positive 8 9 0]) /\
     forall alloc2,
       create ex_pin_t alloc2 8 9 0 st'
       = Ok (Some 4%positive, st', [pinMode 9 INPUT; digitalWrite 9 0])) /\
  create ex_pin_t None 8 9 0 ex_st = Ok (None, ex_st, []).
Proof.
  split; [|split].
  - destruct (C8_upsert ex_pin_t ex_st [ex_e1; ex_e2; ex_e3] (Some 4%positive) 6 300 1 ex_wf)
      as (Hupd & _); [reflexivity|].
    apply (Hupd [ex_e1] ex_e2 [ex_e3]); reflexivity.
  - destruct (C8_upsert ex_pin_t ex_st [ex_e1; ex_e2; ex_e3] (Some 4%positive) 8 9 0 ex_wf)
      as (_ & Happ & _); [reflexivity|].
    apply (Happ 4%positive); [|reflexivity].
    apply (bool_decide_unpack _). vm_compute. exact I.
  - destruct (C8_upsert ex_pin_t ex_st [ex_e1; ex_e2; ex_e3] None 8 9 0 ex_wf)
      as (_ & _ & Hnull & _); [exact I|].
    apply Hnull; [|reflexivity].
    apply (bool_decide_unpack _). vm_compute. exact I.
Defined.

(** C10.  Whenever [create] returns a record, new or already there, that
    record holds the id, pin and pull-up just given with [active] false and
    the jitter counter 0.  For a sensor that is already in a well-formed
    registry the call does return it, whatever its [active] and counter
    were: a debounce in progress is dropped. *)
Theorem C10_create_resets (pin_t : Z -> Z) (alloc : option loc) (n pin pullUp : Z)
    (st : Registry) :
  (forall t st' hw,
     create pin_t alloc n pin pullUp st = Ok (Some t, st', hw) ->
     exists s, heap st' !! t = Some s /\ active s = false /\ latchdelay s = 0 /\
               data s = mkData n (pin_t pin) (if pullUp =? 0 then LOW else HIGH)) /\
  (forall pre e post,
     wf st (pre ++ e :: post) -> snum (e_data e) = n ->
     exists st' hw s,
       create pin_t alloc n pin pullUp st = Ok (Some (e_loc e), st', hw) /\
       heap st' !! e_loc e = Some s /\ active s = false /\ latchdelay s = 0).
Proof.
  split.
  - intros t st' hw. apply create_stores.
  - intros pre e post Hwf <-.
    destruct (create_update pin_t st pre e post alloc pin pullUp Hwf) as [Hc _].
    destruct (create_stores _ _ _ _ _ _ _ _ _ Hc) as (s & Hs & Ha & Hl & _).
    eauto 10.
Qed.

Lemma C10_create_resets_witness :
  exists st' hw s,
    create ex_pin_t None 6 3 1 ex_st = Ok (Some 2%positive, st', hw) /\
    heap st' !! 2%positive = Some s /\ active s = false /\ latchdelay s = 0.
Proof.
  destruct (C10_create_resets ex_pin_t None 6 3 1 ex_st) as [_ Hex].
  apply (Hex [ex_e1] ex_e2 [ex_e3]); [exact ex_wf | reflexivity].
Defined.

End SensorsProps.

(** * Properties of the PCF8574 driver *)

Module PCF8574Props.
Import PCF8574.

(** ** Bits and masks *)

Lemma land_pow2 x n :
  0 <= n -> Z.land x (2 ^ n) = if Z.testbit x n then 2 ^ n else 0.
Proof.
  intros Hn. apply Z.bits_inj'. intros m Hm.
  rewrite Z.land_spec, Z.pow2_bits_eqb by done.
  destruct (Z.eqb_spec n m) as [->|Hne].
  - destruct (Z.testbit x m) eqn:Hx; simpl.
    + by rewrite Z.pow2_bits_true.
    + by rewrite Z.bits_0.
  - rewrite andb_false_r. destruct (Z.testbit x n).
    + by rewrite Z.pow2_bits_false.
    + by rewrite Z.bits_0.
Qed.

Lemma land_pow2_eqb x n :
  0 <= n -> (Z.land x (2 ^ n) =? 0) = negb (Z.testbit x n).
Proof.
  intros Hn. rewrite land_pow2 by done. destruct (Z.testbit x n); simpl; [|done].
  apply Z.eqb_neq. pose proof (Z.pow_pos_nonneg 2 n). lia.
Qed.

Lemma byte_testbit x n : 0 <= n < 8 -> Z.testbit (byte x) n = Z.testbit x n.
Proof. intros Hn. unfold byte. change 256 with (2 ^ 8). apply Z.mod_pow2_bits_low. lia. Qed.

Lemma pin_mask_pow2 d vpin :
  0 <= vpin - _firstVpin d < 8 -> pin_mask d vpin = 2 ^ (vpin - _firstVpin d).
Proof.
  intros Hp. unfold pin_mask, byte. rewrite Z.shiftl_1_l.
  apply Z.mod_small. split; [apply Z.pow_nonneg; lia|].
  change 256 with (2 ^ 8). apply Z.pow_lt_mono_r; lia.
Qed.

Lemma testbit_set x n :
  0 <= n < 8 -> Z.testbit (byte (Z.lor x (2 ^ n))) n = true.
Proof.
  intros Hn. rewrite byte_testbit by done.
  rewrite Z.lor_spec, Z.pow2_bits_true by lia. apply orb_true_r.
Qed.

Lemma testbit_clear x n :
  0 <= n < 8 -> Z.testbit (byte (Z.land x (Z.lnot (2 ^ n)))) n = false.
Proof.
  intros Hn. rewrite byte_testbit by done.
  rewrite Z.land_spec, Z.lnot_spec, Z.pow2_bits_true by lia. apply andb_false_r.
Qed.

Lemma testbit_set_other x n m :
  0 <= n -> 0 <= m < 8 -> n <> m ->
  Z.testbit (byte (Z.lor x (2 ^ n))) m = Z.testbit x m.
Proof.
  intros Hn Hm Hne. rewrite byte_testbit by done.
  rewrite Z.lor_spec, Z.pow2_bits_false by done. apply orb_false_r.
Qed.

Lemma testbit_clear_other x n m :
  0 <= n -> 0 <= m < 8 -> n <> m ->
  Z.testbit (byte (Z.land x (Z.lnot (2 ^ n)))) m = Z.testbit x m.
Proof.
  intros Hn Hm Hne. rewrite byte_testbit by done.
  rewrite Z.land_spec, Z.lnot_spec, Z.pow2_bits_false by (done || lia).
  apply andb_true_r.
Qed.

(** ** Line write and read *)

Section Lines.

Variable I2C_STATUS_OK : Z.

Lemma write_spec d vpin V :
  let pin := vpin - _firstVpin d in
  0 <= pin < 8 ->
  let latch := if V =? 0 then byte (Z.land (_portOutputState d) (Z.lnot (2 ^ pin)))
               else byte (Z.lor (_portOutputState d) (2 ^ pin)) in
  _write vpin V d = (set_out latch d, [I2C_write (_I2CAddress d) [latch]]) /\
  Z.testbit latch pin = negb (V =? 0) /\
  (forall m, 0 <= m < 8 -> m <> pin ->
             Z.testbit latch m = Z.testbit (_portOutputState d) m).
Proof.
  intros pin Hp latch. unfold _write. rewrite pin_mask_pow2 by done. fold pin.
  subst latch. destruct (V =? 0); simpl.
  - split; [done|]. split; [by apply testbit_clear|].
    intros m Hm Hne. apply testbit_clear_other; lia.
  - split; [done|]. split; [by apply testbit_set|].
    intros m Hm Hne. apply testbit_set_other; lia.
Qed.

Lemma read_released d vpin reply :
  let pin := vpin - _firstVpin d in
  0 <= pin < 8 ->
  Z.testbit (_portOutputState d) pin = true ->
  _read I2C_STATUS_OK vpin reply d
  = (Z.b2z (Z.testbit (_portInputState d) pin), d, []).
Proof.
  intros pin Hp Hbit. unfold _read. rewrite pin_mask_pow2 by done. fold pin.
  rewrite land_pow2_eqb by lia. rewrite Hbit. simpl.
  rewrite land_pow2_eqb by lia. rewrite negb_involutive.
  by destruct (Z.testbit (_portInputState d) pin).
Qed.

Lemma read_driven d vpin reply :
  let pin := vpin - _firstVpin d in
  0 <= pin < 8 ->
  Z.testbit (_portOutputState d) pin = false ->
  let latch := byte (Z.lor (_portOutputState d) (2 ^ pin)) in
  _read I2C_STATUS_OK vpin reply d
  = (Z.b2z (Z.testbit (sampled I2C_STATUS_OK reply) pin),
     set_in (sampled I2C_STATUS_OK reply) (set_out latch d),
     [I2C_read (_I2CAddress d) 1 [latch]]).
Proof.
  intros pin Hp Hbit latch. unfold _read, sampled. rewrite pin_mask_pow2 by done. fold pin.
  rewrite (land_pow2_eqb (_portOutputState d)) by lia. rewrite Hbit. simpl.
  destruct (reply.1 =? I2C_STATUS_OK); simpl;
    rewrite land_pow2_eqb by lia; rewrite negb_involutive;
    by destruct (Z.testbit _ pin).
Qed.

(** C2 (as amended).  Writing V to one of the eight lines of the device
    sets the line's bit of the output latch to 1 when V is not 0 and to 0
    when it is, leaves the other bits alone and sends the latch byte to the
    device.  A read of that line straight after does not give the latch
    back: it gives the line's bit of the input sample.  After a non-zero V
    that is the bit sampled before the write, returned with no bus traffic;
    after V = 0 the read first sets the latch bit back to 1, sends the latch
    in a write-then-read transaction and returns the line's bit of the byte
    read, or 1 when the transaction failed. *)
Theorem C2_write_then_read (d : Device) (vpin V : Z) (reply : Z * Z) :
  let pin := vpin - _firstVpin d in
  0 <= pin < 8 ->
  let d1 := (_write vpin V d).1 in
  (_write vpin V d).2 = [I2C_write (_I2CAddress d) [_portOutputState d1]] /\
  Z.testbit (_portOutputState d1) pin = negb (V =? 0) /\
  (forall m, 0 <= m < 8 -> m <> pin ->
     Z.testbit (_portOutputState d1) m = Z.testbit (_portOutputState d) m) /\
  (V <> 0 ->
     _read I2C_STATUS_OK vpin reply d1
     = (Z.b2z (Z.testbit (_portInputState d) pin), d1, [])) /\
  (V = 0 ->
     let latch := byte (Z.lor (_portOutputState d1) (2 ^ pin)) in
     let sample := sampled I2C_STATUS_OK reply in
     Z.testbit latch pin = true /\
     _read I2C_STATUS_OK vpin reply d1
     = (Z.b2z (Z.testbit sample pin), set_in sample (set_out latch d1),
        [I2C_read (_I2CAddress d) 1 [latch]])).
Proof.
  intros pin Hp d1. destruct (write_spec d vpin V Hp) as (Hw & Hbit & Hother).
  fold pin in Hw, Hbit, Hother. subst d1. rewrite Hw. simpl.
  split; [done|]. split; [done|]. split; [done|]. split.
  - intros HV. apply Z.eqb_neq in HV. rewrite HV in *.
    by apply (read_released (set_out _ d) vpin reply Hp).
  - intros ->. simpl in *. split; [by apply testbit_set|].
    by apply (read_driven (set_out _ d) vpin reply Hp).
Qed.

(** C9.  For each of the eight lines of the device: reading a line whose
    latch bit is already 1 makes no bus call, leaves the device as it is and
    returns the line's bit of the cached input sample.  Reading a line whose
    latch bit is 0 sets that bit, leaves the other latch bits alone, sends
    the latch byte with the bit set in one write-then-read transaction, and
    returns the line's bit of the byte that transaction read (1 when it
    failed). *)
Theorem C9_read_release (d : Device) (vpin : Z) (reply : Z * Z) :
  let pin := vpin - _firstVpin d in
  0 <= pin < 8 ->
  (Z.testbit (_portOutputState d) pin = true ->
     _read I2C_STATUS_OK vpin reply d
     = (Z.b2z (Z.testbit (_portInputState d) pin), d, [])) /\
  (Z.testbit (_portOutputState d) pin = false ->
     let latch := byte (Z.lor (_portOutputState d) (2 ^ pin)) in
     let sample := sampled I2C_STATUS_OK reply in
     Z.testbit latch pin = true /\
     (forall m, 0 <= m < 8 -> m <> pin ->
        Z.testbit latch m = Z.testbit (_portOutputState d) m) /\
     _read I2C_STATUS_OK vpin reply d
     = (Z.b2z (Z.testbit sample pin), set_in sample (set_out latch d),
        [I2C_read (_I2CAddress d) 1 [latch]])).
Proof.
  intros pin Hp. split.
  - by apply read_released.
  - intros Hbit latch sample. split; [by apply testbit_set|]. split.
    + intros m Hm Hne. apply testbit_set_other; lia.
    + by apply read_driven.
Qed.

End Lines.

(** C2, as the specification words it, fails on a device fresh from its
    constructor: line 100 written with 1 reads back 0 (no scan has filled
    the input sample yet); and written with 0 it reads back 1 when the
    device answers with the byte the read has just sent. *)
Lemma C2_counterexample :
  (_read 0 100 (0, 0) (_write 100 1 ex_dev).1).1.1 <> 1 /\
  (_read 0 100 (0, 1) (_write 100 0 ex_dev).1).1.1 <> 0.
Proof. split; vm_compute; discriminate. Qed.

Lemma C2_write_then_read_witness :
  (_write 100 1 ex_dev).2 = [I2C_write 32 [1]] /\
  _read 0 100 (0, 0) (_write 100 1 ex_dev).1 = (0, (_write 100 1 ex_dev).1, []) /\
  _read 0 100 (0, 1) (_write 100 0 ex_dev).1
  = (1, set_in 1 (set_out 1 ex_dev), [I2C_read 32 1 [1]]).
Proof.
  split; [|split].
  - destruct (C2_write_then_read 0 ex_dev 100 1 (0, 0)) as (H & _); [simpl; lia|].
    exact H.
  - destruct (C2_write_then_read 0 ex_dev 100 1 (0, 0)) as (_ & _ & _ & H & _);
      [simpl; lia|].
    apply H. discriminate.
  - destruct (C2_write_then_read 0 ex_dev 100 0 (0, 1)) as (_ & _ & _ & _ & H);
      [simpl; lia|].
    apply H. reflexivity.
Defined.

Lemma C9_read_release_witness :
  _read 0 103 (0, 0) (set_out 8 ex_dev) = (0, set_out 8 ex_dev, []) /\
  _read 0 103 (0, 247) ex_dev
  = (0, set_in 247 (set_out 8 ex_dev), [I2C_read 32 1 [8]]).
Proof.
  split.
  - destruct (C9_read_release 0 (set_out 8 ex_dev) 103 (0, 0)) as (H & _);
      [simpl; lia|].
    apply H. reflexivity.
  - destruct (C9_read_release 0 ex_dev 103 (0, 247)) as (_ & H);
      [simpl; lia|].
    apply H. reflexivity.
Defined.


(** ** Configuration *)

(** C7.  A configuration request whose [params] array holds the
    [paramCount] entries it announces always returns, leaving the device as
    it was, and returns true exactly when the type is [CONFIGURE_INPUT],
    there is one parameter and that parameter is not 0 (pull-up asked
    for). *)
Theorem C7_configure (CONFIGURE_INPUT : Z) (vpin configType paramCount : Z)
    (params : list Z) (d : Device) :
  (Z.to_nat paramCount <= length params)%nat ->
  exists b,
    _configure CONFIGURE_INPUT vpin configType paramCount params d = Ok (b, d) /\
    (b = true <->
     configType = CONFIGURE_INPUT /\ paramCount = 1 /\
     exists p0, params !! 0%nat = Some p0 /\ p0 <> 0).
Proof.
  intros Hlen. unfold _configure.
  destruct (Z.eqb_spec configType CONFIGURE_INPUT) as [Hc|Hc]; simpl.
  - destruct (Z.eqb_spec paramCount 1) as [Hp|Hp].
    + destruct params as [|p0 params]; [subst; simpl in Hlen; lia|]. simpl.
      destruct (Z.eqb_spec p0 0) as [Hz|Hz]; simpl.
      * exists false. split; [done|]. split; [done|].
        intros (_ & _ & q & [= <-] & Hq). done.
      * exists true. split; [done|]. split; [|done].
        intros _. split; [done|]. split; [done|]. by exists p0.
    + exists false. split; [done|]. split; [done|]. by intros (_ & ? & _).
  - exists false. split; [done|]. split; [done|]. by intros (? & _).
Qed.

Lemma C7_configure_witness :
  (exists b,
     _configure 1 103 1 1 [1] ex_dev = Ok (b, ex_dev) /\
     (b = true <-> 1 = 1 /\ 1 = 1 /\ exists p0, [1] !! 0%nat = Some p0 /\ p0 <> 0)) /\
  (exists b,
     _configure 1 104 1 1 [0] ex_dev = Ok (b, ex_dev) /\
     (b = true <-> 1 = 1 /\ 1 = 1 /\ exists p0, [0] !! 0%nat = Some p0 /\ p0 <> 0)).
Proof.
  split.
  - apply (C7_configure 1 103 1 1 [1] ex_dev). simpl. lia.
  - apply (C7_configure 1 104 1 1 [0] ex_dev). simpl. lia.
Defined.

(** ** The clock *)


(** ** The polling state machine *)

Section Loop.

Variable I2C_STATUS_OK : Z.
Variable inputBuffer_size : Z.

#[local] Abbreviation completion := (loop_completion I2C_STATUS_OK inputBuffer_size).
#[local] Abbreviation loop := (_loop I2C_STATUS_OK inputBuffer_size).




Lemma admission_input now d :
  _portInputState (loop_admission now d).1 = _portInputState d /\
  _portOutputState (loop_admission now d).1 = _portOutputState d.
Proof.
  unfold loop_admission.
  destruct (tick_elapsed now d); [|done]. by destruct (_deviceState d).
Qed.




(** C5.  Once the request of a device in [DEVSTATE_SCANNING] has finished,
    the call of [_loop] deals with it so: on success the read buffer
    becomes the input sample and the state [DEVSTATE_NORMAL]; on any error
    status the input sample becomes 0xFF and the state [DEVSTATE_DORMANT].
    No bus call is made for it, and [_loop] just goes on to its tick test:
    the call returns the device with that input sample, in that state when
    the tick interval has not elapsed, and with the next request queued
    (a read after success, a probe after failure) when it has. *)
Theorem C5_scan_completion (now : Z) (d : Device) :
  _deviceState d = DEVSTATE_SCANNING ->
  rb_busy (requestBlock d) = false ->
  let ok := rb_status (requestBlock d) =? I2C_STATUS_OK in
  let d1 := if ok then set_state DEVSTATE_NORMAL (set_in (inputBuffer d) d)
            else set_state DEVSTATE_DORMANT (set_in 255 d) in
  completion d = (d1, []) /\
  loop now d = loop_admission now d1 /\
  _portInputState (loop now d).1 = (if ok then inputBuffer d else 255) /\
  _deviceState (loop now d).1
  = (if tick_elapsed now d
     then (if ok then DEVSTATE_SCANNING else DEVSTATE_PROBING)
     else (if ok then DEVSTATE_NORMAL else DEVSTATE_DORMANT)).
Proof.
  intros Hs Hb ok d1.
  assert (Hc : completion d = (d1, [])).
  { unfold loop_completion. rewrite Hs. subst d1 ok. by destruct (_ =? _). }
  assert (Hl : loop now d = loop_admission now d1).
  { unfold _loop. rewrite Hb, Hc. by destruct (loop_admission now d1). }
  split; [done|]. split; [done|]. rewrite Hl. split.
  - rewrite (proj1 (admission_input now d1)). subst d1. by destruct ok.
  - unfold loop_admission.
    assert (Ht : tick_elapsed now d1 = tick_elapsed now d) by (subst d1; by destruct ok).
    rewrite Ht. subst d1. by destruct (tick_elapsed now d), ok.
Qed.


End Loop.

Lemma C5_scan_completion_witness :
  _loop 0 1 1200 (ex_scanning 0)
  = (set_state DEVSTATE_NORMAL (set_in 90 (ex_scanning 0)), []) /\
  _portInputState (_loop 0 1 1600 (ex_scanning 4)).1 = 255 /\
  _deviceState (_loop 0 1 1600 (ex_scanning 4)).1 = DEVSTATE_PROBING.
Proof.
  split; [|split].
  - destruct (C5_scan_completion 0 1 1200 (ex_scanning 0)) as (_ & H & _);
      [reflexivity | reflexivity |].
    rewrite H. reflexivity.
  - destruct (C5_scan_completion 0 1 1600 (ex_scanning 4)) as (_ & _ & H & _);
      [reflexivity | reflexivity |].
    exact H.
  - destruct (C5_scan_completion 0 1 1600 (ex_scanning 4)) as (_ & _ & _ & H);
      [reflexivity | reflexivity |].
    exact H.
Defined.



End PCF8574Props.

(** * Further properties of the sensor registry *)

Module SensorsMore.
Import Sensors SensorsProps.

(** ** Lookup *)

Lemma find_id_elem es e :
  NoDup (ids es) -> e ∈ es -> find_id (snum (e_data e)) es = Some e.
Proof.
  intros Hnd Hin. apply list_elem_of_split in Hin as (pre & post & ->).
  apply find_id_app_found; [|done]. by eapply NoDup_ids_pre.
Qed.

(** X1.  In a well-formed registry [get] finds every sensor by its id, at
    the address of its record; for an id no record carries it returns
    NULL.  A returned address is always that of a record with the id asked
    for. *)
Theorem get_lookup (st : Registry) (es : list Entry) :
  wf st es ->
  (forall e, e ∈ es -> get (snum (e_data e)) st = Ok (Some (e_loc e))) /\
  (forall n, n ∉ ids es -> get n st = Ok None) /\
  (forall n p, get n st = Ok (Some p) ->
     exists e, e ∈ es /\ e_loc e = p /\ snum (e_data e) = n).
Proof.
  intros Hwf. split; [|split].
  - intros e He. rewrite (get_spec _ _ _ Hwf).
    by rewrite (find_id_elem es e (wf_ids _ _ Hwf) He).
  - intros n Hn. rewrite (get_spec _ _ _ Hwf).
    apply find_id_None in Hn. by rewrite Hn.
  - intros n p. rewrite (get_spec _ _ _ Hwf).
    destruct (find_id n es) as [e|] eqn:Hf; [|done].
    intros [= <-]. destruct (find_id_Some _ _ _ Hf). by exists e.
Qed.

Lemma get_lookup_witness :
  get 6 ex_st = Ok (Some 2%positive) /\ get 9 ex_st = Ok None.
Proof.
  destruct (get_lookup ex_st [ex_e1; ex_e2; ex_e3] ex_wf) as (Hfound & Habsent & _).
  split.
  - apply (Hfound ex_e2). right. left.
  - apply (Habsent 9). apply (bool_decide_unpack _). vm_compute. exact I.
Defined.

(** X2.  [printAll] sends one line per record, in the order of the
    sequence, [Q] for an active sensor and [q] for an idle one, after what
    the stream already holds; with no stream it sends nothing.  On a
    well-formed registry it always returns. *)
Theorem printAll_lines (st : Registry) (es : list Entry) :
  wf st es ->
  (forall out, printAll (Some out) st = Ok (Some (out ++ map entry_msg es))) /\
  printAll None st = Ok None.
Proof.
  intros Hwf. split.
  - intros out. by rewrite (printAll_spec _ _ _ Hwf).
  - by rewrite (printAll_spec _ _ _ Hwf).
Qed.

Lemma printAll_lines_witness :
  printAll (Some []) ex_st
  = Ok (Some [Send "q"%char 5; Send "Q"%char 6; Send "q"%char 7]) /\
  printAll None ex_st = Ok None.
Proof.
  destruct (printAll_lines ex_st [ex_e1; ex_e2; ex_e3] ex_wf) as (Hsome & Hnone).
  split; [apply (Hsome []) | exact Hnone].
Defined.

(** ** The debounce filter over any run of samples *)

Lemma checkOne_cases stream raw s :
  0 <= latchdelay s <= 127 ->
  (checkOne stream raw s = (set_latchdelay 0 s, stream)) \/
  (latchdelay s < 127 /\
   checkOne stream raw s = (set_latchdelay (latchdelay s + 1) s, stream)) \/
  (latchdelay s = 127 /\
   checkOne stream raw s
   = (set_latchdelay 0 (set_active (negb (active s)) s),
      send stream (if negb (active s) then "Q"%char else "q"%char) (snum (data s)))).
Proof.
  intros Hr. destruct (Bool.eqb_spec (negb raw) (active s)) as [Ha|Hd].
  - left. by apply checkOne_agree.
  - destruct (Z_lt_le_dec (latchdelay s) 127) as [Hlt|Hge].
    + right. left. split; [done|]. apply checkOne_count; [done | lia].
    + right. right. split; [lia|]. apply checkOne_commit; [done | lia].
Qed.

(** X3.  Whatever samples one record is scanned with, its counter starting
    within 0..127: the events sent are change events of that sensor that
    alternate, the first announcing the opposite of the state published at
    the start; the state published at the end is the one last announced;
    each event costs 128 scans, counting the counter's head start; the
    counter stays within 0..127 and the record keeps its data and link. *)
Theorem debounce_rate (raws : list bool) : forall (s : Sensor) (out : Print),
  0 <= latchdelay s <= 127 ->
  exists k,
    let r := checkMany (Some out) raws s in
    r.2 = Some (out ++ alternating (negb (active s)) (snum (data s)) k) /\
    active r.1 = (if Nat.even k then active s else negb (active s)) /\
    128 * Z.of_nat k + latchdelay r.1 <= latchdelay s + Z.of_nat (length raws) /\
    0 <= latchdelay r.1 <= 127 /\
    data r.1 = data s /\ nextSensor r.1 = nextSensor s.
Proof.
  induction raws as [|raw raws IH]; intros s out Hr.
  - exists 0%nat. simpl. rewrite app_nil_r. repeat split; lia.
  - cbn [checkMany].
    destruct (checkOne_cases (Some out) raw s Hr) as [He | [[Hlt He] | [H127 He]]];
      rewrite He.
    + destruct (IH (set_latchdelay 0 s) out) as (k & Hout & Hact & Hcnt & Hb & Hd & Hn);
        [simpl; lia|].
      exists k. simpl in *. repeat split; try done; lia.
    + destruct (IH (set_latchdelay (latchdelay s + 1) s) out)
        as (k & Hout & Hact & Hcnt & Hb & Hd & Hn); [simpl; lia|].
      exists k. simpl in *. repeat split; try done; lia.
    + simpl send.
      destruct (IH (set_latchdelay 0 (set_active (negb (active s)) s))
                   (out ++ [Send (if negb (active s) then "Q"%char else "q"%char)
                                 (snum (data s))]))
        as (k & Hout & Hact & Hcnt & Hb & Hd & Hn); [simpl; lia|].
      exists (S k). simpl in Hout, Hact, Hcnt, Hb, Hd, Hn.
      rewrite negb_involutive in Hout.
      cbn [fst snd]. split; [|split; [|split; [|split; [|split]]]]; try done.
      * rewrite Hout, <- app_assoc. simpl. by rewrite negb_involutive.
      * rewrite Hact. rewrite Nat.even_succ, <- Nat.negb_even.
        by destruct (Nat.even k), (active s).
      * simpl length. lia.
Qed.

Lemma debounce_rate_witness :
  exists k,
    let r := checkMany (Some []) [false; true; false; false] ex_s1 in
    r.2 = Some ([] ++ alternating (negb (active ex_s1)) (snum (data ex_s1)) k) /\
    active r.1 = (if Nat.even k then active ex_s1 else negb (active ex_s1)) /\
    128 * Z.of_nat k + latchdelay r.1
    <= latchdelay ex_s1 + Z.of_nat (length [false; true; false; false]) /\
    0 <= latchdelay r.1 <= 127 /\
    data r.1 = data ex_s1 /\ nextSensor r.1 = nextSensor ex_s1.
Proof.
  apply (debounce_rate [false; true; false; false] ex_s1 []). simpl. lia.
Defined.

(** ** What [create] and [remove] do to the store *)

Section Footprint.

Variable pin_t : Z -> Z.

Lemma create_append_eq st es p n pin pullUp :
  wf st es -> find_id n es = None -> heap st !! p = None ->
  let e' := new_entry pin_t p n pin pullUp in
  let h1 := match last es with
            | Some e0 => <[e_loc e0 := cell e0 (Some p)]> (<[p := zeroSensor]> (heap st))
            | None => <[p := zeroSensor]> (heap st)
            end in
  create pin_t (Some p) n pin pullUp st
  = Ok (Some p,
        mkRegistry (<[p := cell e' None]> h1) (hd_loc (es ++ [e']) None) (readingSensor st),
        [pinMode pin INPUT; digitalWrite pin pullUp]).
Proof.
  intros Hwf Hn Hp e' h1. pose proof Hwf as [Hfirst Hchain Hlocs Hids Hcur].
  destruct es as [|e0 es0] using rev_ind.
  - unfold create, create_find. rewrite Hfirst. simpl.
    unfold load. by rewrite lookup_insert_eq.
  - clear IHes0. subst h1. rewrite last_snoc.
    pose proof Hchain as Hch. apply chain_app in Hch as [_ [He0 _]]. simpl in He0.
    assert (He0p : e_loc e0 <> p) by (intros Heq; rewrite Heq in He0; congruence).
    unfold create, create_find.
    destruct (firstSensor st) as [f|] eqn:Hf; [|rewrite Hfirst in Hf; by destruct es0].
    rewrite (get_spec _ _ _ Hwf), Hn. simpl.
    rewrite (last_loop_spec _ es0 e0 _ Hchain); cycle 1.
    { pose proof (chain_length _ _ _ Hchain Hlocs) as Hlen.
      rewrite length_app in Hlen. simpl in Hlen. lia. }
    { by rewrite <- Hfirst. }
    assert (Hl1 : load (<[p := zeroSensor]> (heap st)) (e_loc e0) = Ok (cell e0 None)).
    { unfold load. rewrite lookup_insert_ne by done. by rewrite He0. }
    simpl. rewrite Hl1. simpl.
    unfold load. rewrite lookup_insert_ne by done. rewrite lookup_insert_eq. simpl.
    do 3 f_equal. rewrite Hfirst. by destruct es0.
Qed.

Lemma remove_found_eq st pre e post :
  wf st (pre ++ e :: post) ->
  let h1 := match last pre with
            | Some e0 => <[e_loc e0 := cell e0 (hd_loc post None)]> (heap st)
            | None => heap st
            end in
  remove (snum (e_data e)) st
  = Ok (true, mkRegistry (delete (e_loc e) h1) (hd_loc (pre ++ post) None)
                         (removed_cursor st e post)).
Proof.
  intros [Hfirst Hchain Hlocs Hids Hcur] h1.
  pose proof (chain_length _ _ _ Hchain Hlocs) as Hlen.
  pose proof (NoDup_ids_pre _ _ _ _ Hids eq_refl) as Hpre.
  rewrite locs_app in Hlocs. simpl in Hlocs.
  destruct (NoDup_middle _ _ _ Hlocs) as (Hnd & Hnpre & Hnpost).
  pose proof Hchain as Hch. apply chain_app in Hch as [Hcpre [He Hcpost]].
  unfold remove. rewrite Hfirst, (remove_loop_found _ _ _ _ _ _ _ Hchain Hlen Hpre eq_refl).
  simpl. rewrite (load_cell _ _ _ He). simpl.
  destruct pre as [|e0 pre0] using rev_ind.
  - simpl. rewrite decide_True by done. simpl. by rewrite (load_cell _ _ _ He).
  - clear IHpre0. subst h1. rewrite last_snoc.
    assert (Hne : e_loc e0 <> e_loc e).
    { intros Heq. apply Hnpre. rewrite locs_app. simpl. rewrite Heq.
      apply elem_of_app. right. left. }
    assert (Hhd : hd_loc ((pre0 ++ [e0]) ++ e :: post) None <> Some (e_loc e)).
    { intros Heq. apply Hnpre. destruct pre0; simpl in Heq; injection Heq as <-; left. }
    rewrite decide_False by (intros Heq; by apply Hhd).
    rewrite last_loc_snoc. simpl.
    apply chain_app in Hcpre as [_ [He0 _]]. simpl in He0.
    rewrite (load_cell _ _ _ He0). simpl.
    unfold load. rewrite lookup_insert_ne by done. rewrite He. simpl.
    do 3 f_equal. by destruct pre0.
Qed.

Lemma find_id_app m es1 es2 :
  find_id m (es1 ++ es2)
  = match find_id m es1 with
    | Some e => Some e
    | None => find_id m es2
    end.
Proof.
  induction es1 as [|e es1 IH]; simpl; [done|].
  by destruct (snum (e_data e) =? m).
Qed.

Lemma find_id_replace m pre e e' post :
  snum (e_data e') = snum (e_data e) -> e_loc e' = e_loc e ->
  e_loc <$> find_id m (pre ++ e' :: post) = e_loc <$> find_id m (pre ++ e :: post).
Proof.
  intros Hs Hl. rewrite !find_id_app. destruct (find_id m pre); [done|].
  simpl. rewrite Hs. destruct (snum (e_data e) =? m); simpl; [by rewrite Hl | done].
Qed.

Lemma find_id_skip m pre e post :
  snum (e_data e) <> m -> find_id m (pre ++ e :: post) = find_id m (pre ++ post).
Proof.
  intros Hne. rewrite !find_id_app. destruct (find_id m pre); [done|].
  simpl. by destruct (Z.eqb_spec (snum (e_data e)) m).
Qed.

Lemma wf_not_fresh st es p :
  wf st es -> heap st !! p = None -> readingSensor st <> Some p.
Proof.
  intros Hwf Hp Hr. destruct (wf_cursor_live _ _ _ Hwf Hr) as [_ [x Hx]]. congruence.
Qed.

(** X4.  Creating a sensor whose id is not in the registry, at an unused
    address, and then removing that id puts the registry back exactly as
    it was: store, head and cursor. *)
Theorem create_remove_roundtrip (st : Registry) (es : list Entry) (p : loc)
    (n pin pullUp : Z) :
  wf st es -> n ∉ ids es -> heap st !! p = None ->
  exists st1,
    create pin_t (Some p) n pin pullUp st
    = Ok (Some p, st1, [pinMode pin INPUT; digitalWrite pin pullUp]) /\
    remove n st1 = Ok (true, st).
Proof.
  intros Hwf Hn Hp. apply find_id_None in Hn.
  pose proof (create_append_eq st es p n pin pullUp Hwf Hn Hp) as Hc. simpl in Hc.
  destruct (create_append pin_t st es p n pin pullUp Hwf Hn Hp) as (st1 & Hc' & Hwf1 & _).
  rewrite Hc in Hc'. injection Hc' as Hst1. rewrite Hst1 in Hc.
  exists st1. split; [done|].
  pose proof (remove_found_eq st1 es (new_entry pin_t p n pin pullUp) [] Hwf1) as Hr.
  simpl in Hr. rewrite Hr. do 2 f_equal.
  rewrite <- (registry_eta st). f_equal.
  - rewrite <- Hst1. simpl. apply map_eq. intros q.
    pose proof (wf_chain _ _ Hwf) as Hchain.
    destruct es as [|e0 es0] using rev_ind.
    + simpl. destruct (decide (q = p)) as [->|Hq].
      * by rewrite lookup_delete_eq.
      * by rewrite lookup_delete_ne, !lookup_insert_ne.
    + clear IHes0. rewrite last_snoc.
      apply chain_app in Hchain as [_ [He0 _]]. simpl in He0.
      assert (He0p : e_loc e0 <> p) by (intros Heq; rewrite Heq in He0; congruence).
      destruct (decide (q = p)) as [->|Hq]; [by rewrite lookup_delete_eq|].
      rewrite lookup_delete_ne by done.
      destruct (decide (q = e_loc e0)) as [->|Hq0].
      * by rewrite lookup_insert_eq.
      * by rewrite !lookup_insert_ne.
  - rewrite app_nil_r. symmetry. apply (wf_first _ _ Hwf).
  - unfold removed_cursor. rewrite <- Hst1. simpl.
    rewrite decide_False; [done|]. by eapply wf_not_fresh.
Qed.

(** X5.  After a [create] that returned a record, [get] of that id returns
    the same record, and [get] of any other id answers as before. *)
Theorem create_then_get (st : Registry) (es : list Entry) (alloc : option loc)
    (n pin pullUp : Z) (t : loc) (st' : Registry) (hw : list HwCall) :
  wf st es -> fresh alloc st ->
  create pin_t alloc n pin pullUp st = Ok (Some t, st', hw) ->
  get n st' = Ok (Some t) /\
  (forall m, m <> n -> get m st' = get m st).
Proof.
  intros Hwf Hfresh Hc.
  destruct (find_id n es) as [e|] eqn:Hfind.
  - destruct (find_id_split _ _ _ Hfind) as (pre & post & -> & Hpre).
    destruct (find_id_Some _ _ _ Hfind) as [_ <-].
    destruct (create_update pin_t st pre e post alloc pin pullUp Hwf) as [Hc' Hwf'].
    rewrite Hc' in Hc. injection Hc as <- <- <-.
    split.
    + rewrite (get_spec _ _ _ Hwf'). by rewrite find_id_app_found.
    + intros m Hm. rewrite (get_spec _ _ _ Hwf'), (get_spec _ _ _ Hwf).
      f_equal. by apply find_id_replace.
  - destruct alloc as [p|].
    + destruct (create_append pin_t st es p n pin pullUp Hwf Hfind Hfresh)
        as (st1 & Hc' & Hwf' & _).
      rewrite Hc' in Hc. injection Hc as <- <- <-.
      split.
      * rewrite (get_spec _ _ _ Hwf'). by rewrite find_id_app_found.
      * intros m Hm. rewrite (get_spec _ _ _ Hwf'), (get_spec _ _ _ Hwf).
        f_equal. rewrite find_id_app. destruct (find_id m es); [done|].
        simpl. by destruct (Z.eqb_spec n m).
    + rewrite (create_nomem pin_t st es n pin pullUp Hwf Hfind) in Hc. discriminate.
Qed.

End Footprint.

Lemma create_remove_roundtrip_witness :
  exists st1,
    create ex_pin_t (Some 4%positive) 8 9 0 ex_st
    = Ok (Some 4%positive, st1, [pinMode 9 INPUT; digitalWrite 9 0]) /\
    remove 8 st1 = Ok (true, ex_st).
Proof.
  apply (create_remove_roundtrip ex_pin_t ex_st [ex_e1; ex_e2; ex_e3] 4%positive 8 9 0 ex_wf);
    [|reflexivity].
  apply (bool_decide_unpack _). vm_compute. exact I.
Defined.

Lemma create_then_get_witness :
  exists st',
    create ex_pin_t (Some 4%positive) 8 9 0 ex_st
    = Ok (Some 4%positive, st', [pinMode 9 INPUT; digitalWrite 9 0]) /\
    get 8 st' = Ok (Some 4%positive) /\
    (forall m, m <> 8 -> get m st' = get m ex_st).
Proof.
  destruct (create_append ex_pin_t ex_st [ex_e1; ex_e2; ex_e3] 4%positive 8 9 0 ex_wf)
    as (st' & Hc & _); [reflexivity | reflexivity |].
  exists st'. split; [exact Hc|].
  apply (create_then_get ex_pin_t ex_st [ex_e1; ex_e2; ex_e3] (Some 4%positive) 8 9 0
           4%positive st' [pinMode 9 INPUT; digitalWrite 9 0] ex_wf);
    [reflexivity | exact Hc].
Defined.

(** X6.  After [remove] has taken a sensor out, [get] of its id returns
    NULL, [get] of any other id answers as before, and a second [remove] of
    the same id returns false and changes nothing. *)
Theorem remove_then_get (st : Registry) (pre : list Entry) (e : Entry)
    (post : list Entry) :
  wf st (pre ++ e :: post) ->
  exists st',
    remove (snum (e_data e)) st = Ok (true, st') /\
    get (snum (e_data e)) st' = Ok None /\
    (forall m, m <> snum (e_data e) -> get m st' = get m st) /\
    remove (snum (e_data e)) st' = Ok (false, st').
Proof.
  intros Hwf. destruct (remove_found st pre e post Hwf) as (st' & Hr & Hwf' & _).
  exists st'. split; [done|].
  assert (Hgone : find_id (snum (e_data e)) (pre ++ post) = None).
  { apply find_id_None. pose proof (wf_ids _ _ Hwf) as Hids.
    rewrite ids_app in Hids. simpl in Hids.
    destruct (NoDup_middle _ _ _ Hids) as (_ & H1 & H2).
    rewrite ids_app. intros Hin. apply elem_of_app in Hin as [|]; done. }
  split; [|split].
  - by rewrite (get_spec _ _ _ Hwf'), Hgone.
  - intros m Hm. rewrite (get_spec _ _ _ Hwf'), (get_spec _ _ _ Hwf).
    by rewrite find_id_skip by congruence.
  - by apply (remove_absent _ _ _ Hwf').
Qed.

Lemma remove_then_get_witness :
  exists st',
    remove 6 ex_st = Ok (true, st') /\
    get 6 st' = Ok None /\
    (forall m, m <> 6 -> get m st' = get m ex_st) /\
    remove 6 st' = Ok (false, st').
Proof. apply (remove_then_get ex_st [ex_e1] ex_e2 [ex_e3] ex_wf). Defined.




(** ** Scanning and the rest of the registry *)

(** X19.  A call of [checkAll] on a well-formed registry returns and leaves
    a well-formed registry with the same records at the same addresses in
    the same order, each with its id, pin and pull-up as before; [get]
    answers every id as it did. *)
Theorem scan_keeps_records (stream : option Print) (dr : Z -> bool)
    (st : Registry) (es : list Entry) :
  wf st es ->
  exists st' stream' es',
    checkAll stream dr st = Ok (st', stream') /\
    wf st' es' /\
    locs es' = locs es /\
    e_data <$> es' = e_data <$> es /\
    (forall m, get m st' = get m st).
Proof.
  intros Hwf. destruct es as [|e0 es0].
  - exists st, stream, []. split; [by apply wf_empty_checkAll|].
    split; [done|]. by repeat split.
  - destruct (wf_cursor_split st (e0 :: es0) Hwf) as (pre & e & post & Hes & Hc); [done|].
    rewrite Hes in *. clear Hes.
    destruct (checkAll_spec st pre e post stream dr Hwf Hc) as [Hcall Hwf'].
    pose proof (scan_entry_loc stream (dr (pin (e_data e))) e) as Hl.
    pose proof (scan_entry_data stream (dr (pin (e_data e))) e) as Hd.
    eexists _, _, _. split; [exact Hcall|]. split; [exact Hwf'|].
    split; [|split].
    + rewrite !locs_app. simpl. by rewrite Hl.
    + rewrite !fmap_app. simpl. by rewrite Hd.
    + intros m. rewrite (get_spec _ _ _ Hwf'), (get_spec _ _ _ Hwf).
      f_equal. apply find_id_replace; [by rewrite Hd | done].
Qed.

Lemma scan_keeps_records_witness :
  exists st' stream' es',
    checkAll (Some []) (fun _ => false) ex_st = Ok (st', stream') /\
    wf st' es' /\
    locs es' = locs [ex_e1; ex_e2; ex_e3] /\
    e_data <$> es' = e_data <$> [ex_e1; ex_e2; ex_e3] /\
    (forall m, get m st' = get m ex_st).
Proof.
  apply (scan_keeps_records (Some []) (fun _ => false) ex_st [ex_e1; ex_e2; ex_e3] ex_wf).
Defined.

Lemma scan_run_app reads1 : forall reads2 stream st,
  scan_run stream (reads1 ++ reads2) st
  = (r1 ← scan_run stream reads1 st;
     r2 ← scan_run r1.2 reads2 r1.1.2;
     Ok (r1.1.1 ++ r2.1.1, r2.1.2, r2.2)).
Proof.
  induction reads1 as [|dr reads1 IH]; intros reads2 stream st.
  - simpl. by destruct (scan_run stream reads2 st) as [[[vs st2] s2]| |].
  - cbn [app scan_run].
    destruct (checkAll stream dr st) as [[st1 stream1]| |]; simpl; [|done..].
    rewrite IH.
    destruct (scan_run stream1 reads1 st1) as [[[vs1 sta] sa]| |]; simpl; [|done..].
    destruct (scan_run sa reads2 sta) as [[[vs2 stb] sb]| |]; simpl; [|done..].
    by rewrite app_assoc.
Qed.

(** X20.  Round robin for good: in a well-formed registry of N >= 1
    records with the cursor at the head, k times N consecutive calls of
    [checkAll] read the records in sequence order k times over, every
    record exactly k times, and leave a well-formed registry with the same
    records at the same addresses and the next call due at the head
    again. *)
Theorem round_robin_sweeps (k : nat) : forall (stream : option Print)
    (reads : list (Z -> bool)) (st : Registry) (es : list Entry),
  wf st es -> es <> [] ->
  cursor st = firstSensor st ->
  length reads = (k * length es)%nat ->
  exists st' stream' es',
    scan_run stream reads st = Ok (concat (replicate k (locs es)), st', stream') /\
    wf st' es' /\ locs es' = locs es /\
    cursor st' = firstSensor st'.
Proof.
  induction k as [|k IH]; intros stream reads st es Hwf Hne Hcur Hlen.
  - destruct reads; [|done]. exists st, stream, es.
    split; [done|]. split; [done|]. by split.
  - rewrite <- (take_drop (length es) reads).
    assert (Hl1 : length (take (length es) reads) = length es)
      by (rewrite length_take; simpl in Hlen; lia).
    assert (Hl2 : length (drop (length es) reads) = (k * length es)%nat)
      by (rewrite length_drop; simpl in Hlen; lia).
    destruct es as [|e0 es0] eqn:Hes; [done|]. rewrite <- Hes in *.
    assert (Hc : cursor st = Some (e_loc e0)).
    { rewrite Hcur, (wf_first _ _ Hwf). by rewrite Hes. }
    destruct (scan_run_suffix es [] st stream (take (length es) reads) (e_loc e0))
      as (st1 & Hrun1 & Hwf1 & Hrs1); [done | by rewrite Hes | done | done |].
    simpl in Hwf1.
    pose proof (scan_entries_locs stream (take (length es) reads) es) as Hlocs1.
    destruct (scan_entries stream (take (length es) reads) es) as [es1 stream1].
    simpl in *.
    assert (Hlen1 : length es1 = length es).
    { apply (f_equal length) in Hlocs1. unfold locs in Hlocs1.
      by rewrite !length_fmap in Hlocs1. }
    destruct (IH stream1 (drop (length es) reads) st1 es1)
      as (st2 & stream2 & es2 & Hrun2 & Hwf2 & Hlocs2 & Hcur2).
    + done.
    + intros ->. rewrite Hes in Hlen1. done.
    + unfold cursor. by rewrite Hrs1.
    + by rewrite Hlen1.
    + rewrite scan_run_app, Hrun1. simpl. rewrite Hrun2. simpl.
      exists st2, stream2, es2. rewrite Hlocs1 in *.
      split; [done|]. split; [done|]. split; [congruence | done].
Qed.

Lemma round_robin_sweeps_witness :
  exists st' stream' es',
    scan_run None (repeat (fun _ => true) 6) ex_st0
    = Ok (concat (replicate 2 (locs [ex_e1; ex_e2; ex_e3])), st', stream') /\
    wf st' es' /\ locs es' = locs [ex_e1; ex_e2; ex_e3] /\
    cursor st' = firstSensor st'.
Proof.
  apply (round_robin_sweeps 2 None (repeat (fun _ => true) 6) ex_st0
           [ex_e1; ex_e2; ex_e3] ex_wf0); [discriminate | reflexivity | reflexivity].
Defined.

(** ** The jitter counter stays in range *)

Lemma scan_entry_bounded stream raw e :
  0 <= e_latchdelay e <= 127 -> 0 <= e_latchdelay (scan_entry stream raw e).1 <= 127.
Proof.
  intros Hr. unfold scan_entry.
  destruct (checkOne_cases stream raw (cell e None) Hr) as [He | [[Hlt He] | [H127 He]]];
    rewrite He; simpl in *; lia.
Qed.

Lemma bounded_app es1 es2 : bounded (es1 ++ es2) <-> bounded es1 /\ bounded es2.
Proof. apply Forall_app. Qed.

Lemma exec_bounded pin_t op st es :
  wf st es -> bounded es -> op_fresh op st ->
  exists st' es', exec pin_t op st = Ok st' /\ wf st' es' /\ bounded es'.
Proof.
  intros Hwf Hb Hfresh. destruct op as [stream dr|stream|alloc n pin pullUp|n|n]; simpl.
  - destruct es as [|e0 es0].
    + rewrite (wf_empty_checkAll _ _ _ Hwf). simpl. by exists st, [].
    + destruct (wf_cursor_split st (e0 :: es0) Hwf) as (pre & e & post & Hes & Hc); [done|].
      rewrite Hes in Hwf, Hb.
      destruct (checkAll_spec st pre e post stream dr Hwf Hc) as [-> Hwf'].
      simpl. eexists _, _. split; [done|]. split; [exact Hwf'|].
      apply bounded_app in Hb as [Hb1 Hb2]. apply Forall_cons in Hb2 as [He Hb2].
      apply bounded_app. split; [done|]. apply Forall_cons. split; [|done].
      by apply scan_entry_bounded.
  - rewrite (printAll_spec _ _ _ Hwf). simpl. eauto.
  - destruct (find_id n es) as [e|] eqn:Hfind.
    + destruct (find_id_split _ _ _ Hfind) as (pre & post & -> & _).
      destruct (find_id_Some _ _ _ Hfind) as [_ <-].
      destruct (create_update pin_t st pre e post alloc pin pullUp Hwf) as [-> Hwf'].
      simpl. eexists _, _. split; [done|]. split; [exact Hwf'|].
      apply bounded_app in Hb as [Hb1 Hb2]. apply Forall_cons in Hb2 as [He Hb2].
      apply bounded_app. split; [done|]. apply Forall_cons. split; [simpl; lia | done].
    + destruct alloc as [p|].
      * destruct (create_append pin_t st es p n pin pullUp Hwf Hfind Hfresh)
          as (st' & -> & Hwf' & _).
        simpl. eexists _, _. split; [done|]. split; [exact Hwf'|].
        apply bounded_app. split; [done|]. apply Forall_cons. split; [simpl; lia|].
        apply Forall_nil_2.
      * rewrite (create_nomem pin_t st es n pin pullUp Hwf Hfind). simpl. eauto.
  - rewrite (get_spec _ _ _ Hwf). simpl. eauto.
  - destruct (find_id n es) as [e|] eqn:Hfind.
    + destruct (find_id_split _ _ _ Hfind) as (pre & post & -> & _).
      destruct (find_id_Some _ _ _ Hfind) as [_ <-].
      destruct (remove_found st pre e post Hwf) as (st' & -> & Hwf' & _).
      simpl. eexists _, _. split; [done|]. split; [exact Hwf'|].
      apply bounded_app in Hb as [Hb1 Hb2]. apply Forall_cons in Hb2 as [He Hb2].
      by apply bounded_app.
    + rewrite (remove_absent _ _ _ Hwf Hfind). simpl. eauto.
Qed.

(** X8.  The jitter counters never leave 0..127: whatever operations
    follow one another on a well-formed registry whose counters are in
    that range, the registry they leave is well-formed with its counters
    in that range; so the byte that holds a counter never wraps.  The
    registry at start-up qualifies. *)
Theorem counters_bounded (pin_t : Z -> Z) (ops : list Op) :
  forall st es,
  wf st es -> bounded es -> ops_fresh pin_t ops st ->
  exists st' es', exec_all pin_t ops st = Ok st' /\ wf st' es' /\ bounded es'.
Proof.
  induction ops as [|op ops IH]; intros st es Hwf Hb Hfresh; simpl.
  - by exists st, es.
  - destruct Hfresh as [Hop Hrest].
    destruct (exec_bounded pin_t op st es Hwf Hb Hop) as (st1 & es1 & He & Hwf1 & Hb1).
    rewrite He. simpl. apply (IH st1 es1 Hwf1 Hb1). by apply Hrest.
Qed.

Lemma counters_bounded_witness :
  exists st' es',
    exec_all ex_pin_t
      [OpCreate (Some 1%positive) 5 2 1; OpCheckAll None (fun _ => false);
       OpCheckAll None (fun _ => false); OpRemove 5]
      (initial ∅) = Ok st' /\
    wf st' es' /\ bounded es'.
Proof.
  apply (counters_bounded ex_pin_t _ (initial ∅) []).
  - apply wf_initial.
  - apply Forall_nil_2.
  - simpl. split; [reflexivity|]. intros st1 _. split; [exact I|].
    intros st2 _. split; [exact I|]. intros st3 _. split; [exact I|]. intros st4 _. exact I.
Defined.

(** ** Storing and loading the registry *)

Section PersistProps.

Variable pin_t : Z -> Z.
Variable sz : Z.

Lemma store_loop_spec h es : forall fuel ee,
  chain h es None -> (length es <= fuel)%nat ->
  store_loop sz fuel h (hd_loc es None) ee = Ok (store_entries sz es ee).
Proof.
  induction es as [|e es IH]; intros fuel ee Hc Hlen.
  - by destruct fuel.
  - simpl in Hc, Hlen. destruct Hc as [H1 H2].
    destruct fuel as [|fuel]; [lia|]. simpl.
    rewrite (load_cell _ _ _ H1). simpl. apply IH; [done | lia].
Qed.

Lemma store_entries_count es : forall ee,
  nSensors (store_entries sz es ee) = nSensors ee + Z.of_nat (length es) /\
  eeAddress (store_entries sz es ee) = eeAddress ee + sz * Z.of_nat (length es).
Proof.
  induction es as [|e es IH]; intros ee; simpl; [lia|].
  destruct (IH (set_nSensors (nSensors ee + 1)
                  (advance sz (EEPROM_put (eeAddress ee) (e_data e) ee)))) as [H1 H2].
  simpl in H1, H2. rewrite H1, H2. lia.
Qed.

Lemma store_entries_below es : forall ee a,
  0 < sz -> a < eeAddress ee -> eeprom (store_entries sz es ee) a = eeprom ee a.
Proof.
  induction es as [|e es IH]; intros ee a Hsz Ha; simpl; [done|].
  rewrite IH by (done || simpl; lia). simpl.
  destruct (Z.eqb_spec a (eeAddress ee)); [lia | done].
Qed.

Lemma store_entries_slot es : forall ee i e,
  0 < sz -> es !! i = Some e ->
  eeprom (store_entries sz es ee) (eeAddress ee + sz * Z.of_nat i) = e_data e.
Proof.
  induction es as [|e0 es IH]; intros ee i e Hsz Hi; [done|].
  destruct i as [|i]; simpl in Hi |- *.
  - injection Hi as ->. rewrite store_entries_below by (done || simpl; lia).
    change (Z.of_nat 0) with 0. replace (eeAddress ee + sz * 0) with (eeAddress ee) by lia.
    simpl. by rewrite Z.eqb_refl.
  - specialize (IH (set_nSensors (nSensors ee + 1)
                      (advance sz (EEPROM_put (eeAddress ee) (e_data e0) ee))) i e Hsz Hi).
    simpl in IH. rewrite <- IH. f_equal. lia.
Qed.

(** X9.  On a well-formed registry [Sensor::store] returns, sets the
    count to the number of records and, the record size being positive,
    leaves the data of the i-th record in the i-th slot counted from the
    address it started at, the pointer just past the last slot and the
    storage below the first slot as it was. *)
Theorem store_layout (st : Registry) (es : list Entry) (ee : EEStore) :
  0 < sz -> wf st es ->
  exists ee',
    Sensor_store sz st ee = Ok ee' /\
    nSensors ee' = Z.of_nat (length es) /\
    eeAddress ee' = eeAddress ee + sz * Z.of_nat (length es) /\
    (forall i e, es !! i = Some e ->
       EEPROM_get (eeAddress ee + sz * Z.of_nat i) ee' = e_data e) /\
    (forall a, a < eeAddress ee -> EEPROM_get a ee' = EEPROM_get a ee).
Proof.
  intros Hsz Hwf. exists (store_entries sz es (set_nSensors 0 ee)).
  destruct (store_entries_count es (set_nSensors 0 ee)) as [Hn Ha].
  split; [|split; [|split; [|split]]].
  - unfold Sensor_store. rewrite (wf_first _ _ Hwf).
    apply store_loop_spec; [apply (wf_chain _ _ Hwf)|].
    eapply chain_length; [apply (wf_chain _ _ Hwf) | apply (wf_locs _ _ Hwf)].
  - rewrite Hn. simpl. lia.
  - by rewrite Ha.
  - intros i e Hi. unfold EEPROM_get.
    by rewrite <- (store_entries_slot es (set_nSensors 0 ee) i e Hsz Hi).
  - intros a Ha'. unfold EEPROM_get. by rewrite store_entries_below.
Qed.

Lemma create_keeps_free st es p n pin pullUp st1 hw q :
  wf st es -> find_id n es = None -> heap st !! p = None ->
  create pin_t (Some p) n pin pullUp st = Ok (Some p, st1, hw) ->
  heap st !! q = None -> q <> p -> heap st1 !! q = None.
Proof.
  intros Hwf Hn Hp Hc Hq Hqp.
  rewrite (create_append_eq pin_t st es p n pin pullUp Hwf Hn Hp) in Hc.
  injection Hc as <- _. simpl. rewrite lookup_insert_ne by done.
  destruct (last es) as [e0|] eqn:Hlast.
  - rewrite !lookup_insert_ne; [done | done |].
    intros <-. apply last_Some in Hlast as [es0 ->].
    pose proof (wf_chain _ _ Hwf) as Hch. apply chain_app in Hch as [_ [He0 _]].
    simpl in He0. congruence.
  - by rewrite lookup_insert_ne.
Qed.

Lemma load_loop_spec ds : forall ps st es ee,
  wf st es -> length ps = length ds -> NoDup ps ->
  (forall p, p ∈ ps -> heap st !! p = None) ->
  NoDup (ids es ++ (snum <$> ds)) ->
  (forall i d, ds !! i = Some d -> eeprom ee (eeAddress ee + sz * Z.of_nat i) = d) ->
  exists ee' st' hw,
    load_loop pin_t sz (length ds) (Some <$> ps) ee st = Ok (ee', st', hw) /\
    wf st' (es ++ loaded pin_t ps ds) /\
    eeAddress ee' = eeAddress ee + sz * Z.of_nat (length ds) /\
    readingSensor st' = readingSensor st.
Proof.
  induction ds as [|d ds IH]; intros ps st es ee Hwf Hlen Hnd Hfresh Hids Hslots.
  - destruct ps; [|done]. simpl. exists ee, st, []. rewrite app_nil_r.
    split; [done|]. split; [done|]. split; [lia | done].
  - destruct ps as [|p ps]; [done|]. simpl in Hlen.
    apply NoDup_cons in Hnd as [Hp Hnd].
    assert (Hd : EEPROM_get (eeAddress ee) ee = d).
    { unfold EEPROM_get. rewrite <- (Hslots 0%nat d eq_refl). f_equal. lia. }
    assert (Hn : find_id (snum d) es = None).
    { apply find_id_None. intros Hin. apply NoDup_app in Hids as (_ & Hdis & _).
      apply (Hdis _ Hin). left. }
    assert (Hpf : heap st !! p = None) by (apply Hfresh; left).
    destruct (create_append pin_t st es p (snum d) (pin d) (pullUp d) Hwf Hn Hpf)
      as (st1 & Hc & Hwf1 & Hrs1).
    destruct (IH ps st1 (es ++ [new_entry pin_t p (snum d) (pin d) (pullUp d)])
                 (advance sz ee)) as (ee' & st' & hw & Hl & Hwf' & Ha & Hrs);
      [done | lia | done | | | |].
    + intros q Hq.
      apply (create_keeps_free st es p (snum d) (pin d) (pullUp d) st1 _ q Hwf Hn Hpf Hc).
      * apply Hfresh. by right.
      * intros ->. done.
    + rewrite ids_app. simpl. rewrite <- app_assoc. done.
    + intros i d' Hi. simpl. rewrite <- (Hslots (S i) d' Hi). f_equal. lia.
    + cbn [length load_loop fmap list_fmap head tail default]. rewrite Hd.
      simpl. rewrite Hc. simpl. rewrite Hl. simpl.
      eexists _, _, _. split; [reflexivity|]. split; [|split].
      * by rewrite <- app_assoc in Hwf'.
      * rewrite Ha. simpl. lia.
      * by rewrite Hrs.
Qed.

(** X10.  [Sensor::load] with [k] records in storage whose ids differ from
    one another and from those already in a well-formed registry, the
    allocator handing out distinct unused addresses: it returns, the
    registry it leaves is well-formed and holds the old records followed by
    the stored ones in stored order, each idle with counter 0, with its pin
    converted and its pull-up flag [LOW] or [HIGH]; the cursor is where it
    was.  With a count of 0 or less nothing is read and nothing changes. *)
Theorem load_appends (st : Registry) (es : list Entry) (ee : EEStore)
    (ds : list SensorData) (ps : list loc) :
  wf st es ->
  nSensors ee = Z.of_nat (length ds) ->
  (forall i d, ds !! i = Some d -> EEPROM_get (eeAddress ee + sz * Z.of_nat i) ee = d) ->
  NoDup (ids es ++ (snum <$> ds)) ->
  length ps = length ds -> NoDup ps ->
  (forall p, p ∈ ps -> heap st !! p = None) ->
  (exists ee' st' hw,
     Sensor_load pin_t sz (Some <$> ps) ee st = Ok (ee', st', hw) /\
     wf st' (es ++ loaded pin_t ps ds) /\
     readingSensor st' = readingSensor st) /\
  (forall allocs ee0 st0,
     nSensors ee0 <= 0 -> Sensor_load pin_t sz allocs ee0 st0 = Ok (ee0, st0, [])).
Proof.
  intros Hwf Hk Hslots Hids Hlen Hnd Hfresh. split.
  - unfold Sensor_load. rewrite Hk, Nat2Z.id.
    destruct (load_loop_spec ds ps st es ee Hwf Hlen Hnd Hfresh Hids Hslots)
      as (ee' & st' & hw & Hl & Hwf' & _ & Hrs).
    by exists ee', st', hw.
  - intros allocs ee0 st0 Hle. unfold Sensor_load.
    replace (Z.to_nat (nSensors ee0)) with 0%nat by lia. done.
Qed.

Lemma loaded_locs ps ds : length ps = length ds -> locs (loaded pin_t ps ds) = ps.
Proof.
  revert ds. induction ps as [|p ps IH]; intros [|d ds] Hlen; try done.
  simpl in *. unfold locs in *. simpl. f_equal. apply IH. lia.
Qed.

Lemma loaded_data ps ds :
  length ps = length ds -> Forall (canonical pin_t) ds ->
  e_data <$> loaded pin_t ps ds = ds.
Proof.
  revert ds. induction ps as [|p ps IH]; intros [|d ds] Hlen Hcan; try done.
  apply Forall_cons in Hcan as [[Hpin Hpu] Hcan]. simpl in *.
  f_equal; [|apply IH; [lia | done]].
  rewrite Hpin. destruct d as [n q u]. simpl in *. f_equal.
  destruct Hpu as [-> | ->]; reflexivity.
Qed.

Lemma loaded_idle ps ds :
  Forall (fun e => e_active e = false /\ e_latchdelay e = 0) (loaded pin_t ps ds).
Proof.
  revert ds. induction ps as [|p ps IH]; intros [|d ds]; simpl;
    try apply Forall_nil_2.
  apply Forall_cons. split; [done | apply IH].
Qed.

(** X11.  Store, then load: the records of a well-formed registry, as
    [create] made them, are stored by [Sensor::store]; [Sensor::load],
    started at the address the store started at, on an empty registry and
    with an allocator handing out the distinct unused addresses [ps],
    rebuilds a well-formed registry with the same ids, pins and pull-ups in
    the same order, at the addresses [ps], every sensor idle with counter
    0. *)
Theorem store_load_roundtrip (st : Registry) (es : list Entry) (ee : EEStore)
    (h0 : gmap loc Sensor) (ps : list loc) :
  0 < sz -> wf st es ->
  Forall (canonical pin_t) (e_data <$> es) ->
  length ps = length es -> NoDup ps ->
  (forall p, p ∈ ps -> h0 !! p = None) ->
  exists ee1 ee2 st' hw es',
    Sensor_store sz st ee = Ok ee1 /\
    Sensor_load pin_t sz (Some <$> ps)
      (mkEE (nSensors ee1) (eeAddress ee) (eeprom ee1)) (initial h0)
    = Ok (ee2, st', hw) /\
    wf st' es' /\
    locs es' = ps /\
    e_data <$> es' = e_data <$> es /\
    Forall (fun e => e_active e = false /\ e_latchdelay e = 0) es'.
Proof.
  intros Hsz Hwf Hcan Hlen Hnd Hfresh.
  set (ee1 := store_entries sz es (set_nSensors 0 ee)).
  assert (Hst : Sensor_store sz st ee = Ok ee1).
  { unfold Sensor_store. rewrite (wf_first _ _ Hwf).
    apply store_loop_spec; [apply (wf_chain _ _ Hwf)|].
    eapply chain_length; [apply (wf_chain _ _ Hwf) | apply (wf_locs _ _ Hwf)]. }
  assert (Hn : Z.to_nat (nSensors ee1) = length (e_data <$> es)).
  { destruct (store_entries_count es (set_nSensors 0 ee)) as [Hn _].
    subst ee1. rewrite Hn, length_fmap. simpl. lia. }
  assert (Hlen' : length ps = length (e_data <$> es)) by (by rewrite length_fmap).
  destruct (load_loop_spec (e_data <$> es) ps (initial h0) []
              (mkEE (nSensors ee1) (eeAddress ee) (eeprom ee1)) (wf_initial h0) Hlen' Hnd)
    as (ee2 & st' & hw & Hl & Hwf' & _).
  - done.
  - simpl. rewrite <- list_fmap_compose. apply (wf_ids _ _ Hwf).
  - intros i d Hi. apply list_lookup_fmap_Some in Hi as (e & -> & He). simpl.
    by apply (store_entries_slot es (set_nSensors 0 ee) i e Hsz).
  - exists ee1, ee2, st', hw, (loaded pin_t ps (e_data <$> es)).
    split; [done|]. split; [by unfold Sensor_load; simpl; rewrite Hn|]. split; [done|].
    split; [by apply loaded_locs|]. split; [by apply loaded_data | apply loaded_idle].
Qed.

End PersistProps.

Lemma ex_canonical : Forall (canonical ex_pin_t) (e_data <$> [ex_e1; ex_e2; ex_e3]).
Proof.
  repeat (apply Forall_cons; split;
          [split; [reflexivity | first [by left | by right]]|]).
  apply Forall_nil_2.
Qed.

Lemma ex_addresses : NoDup [7%positive; 8%positive; 9%positive].
Proof. apply (bool_decide_unpack _). by vm_compute. Qed.

Lemma store_layout_witness :
  exists ee',
    Sensor_store 4 ex_st ex_ee = Ok ee' /\
    nSensors ee' = 3 /\
    eeAddress ee' = 22 /\
    (forall i e, [ex_e1; ex_e2; ex_e3] !! i = Some e ->
       EEPROM_get (10 + 4 * Z.of_nat i) ee' = e_data e) /\
    (forall a, a < 10 -> EEPROM_get a ee' = EEPROM_get a ex_ee).
Proof. apply (store_layout 4 ex_st [ex_e1; ex_e2; ex_e3] ex_ee); [lia | exact ex_wf]. Defined.

Lemma load_appends_witness :
  exists ee' st' hw,
    Sensor_load ex_pin_t 4 [Some 7%positive; Some 8%positive]
      (mkEE 2 10 (fun a => if a =? 10 then mkData 20 300 5 else mkData 21 3 0)) ex_st
    = Ok (ee', st', hw) /\
    wf st' ([ex_e1; ex_e2; ex_e3]
            ++ loaded ex_pin_t [7%positive; 8%positive] [mkData 20 300 5; mkData 21 3 0]) /\
    readingSensor st' = readingSensor ex_st.
Proof.
  apply (load_appends ex_pin_t 4 ex_st [ex_e1; ex_e2; ex_e3]
           (mkEE 2 10 (fun a => if a =? 10 then mkData 20 300 5 else mkData 21 3 0))
           [mkData 20 300 5; mkData 21 3 0] [7%positive; 8%positive] ex_wf).
  - reflexivity.
  - intros [|[|i]] d Hi; simpl in Hi; [by injection Hi as <- .. | done].
  - apply (bool_decide_unpack _). by vm_compute.
  - reflexivity.
  - apply (bool_decide_unpack _). by vm_compute.
  - intros p Hp. apply elem_of_cons in Hp as [->|Hp]; [reflexivity|].
    apply list_elem_of_singleton in Hp as ->. reflexivity.
Defined.

Lemma store_load_roundtrip_witness :
  exists ee1 ee2 st' hw es',
    Sensor_store 4 ex_st ex_ee = Ok ee1 /\
    Sensor_load ex_pin_t 4 [Some 7%positive; Some 8%positive; Some 9%positive]
      (mkEE (nSensors ee1) 10 (eeprom ee1)) (initial ∅)
    = Ok (ee2, st', hw) /\
    wf st' es' /\
    locs es' = [7%positive; 8%positive; 9%positive] /\
    e_data <$> es' = e_data <$> [ex_e1; ex_e2; ex_e3] /\
    Forall (fun e => e_active e = false /\ e_latchdelay e = 0) es'.
Proof.
  apply (store_load_roundtrip ex_pin_t 4 ex_st [ex_e1; ex_e2; ex_e3] ex_ee ∅
           [7%positive; 8%positive; 9%positive]);
    [lia | exact ex_wf | exact ex_canonical | reflexivity | exact ex_addresses |].
  intros p _. apply lookup_empty.
Defined.

End SensorsMore.

(** * Further properties of the PCF8574 driver *)

Module PCF8574More.
Import PCF8574 PCF8574Props.

(** ** The output latch under writes *)

Lemma byte_high x m : 8 <= m -> Z.testbit (byte x) m = false.
Proof.
  intros Hm. unfold byte. change 256 with (2 ^ 8). apply Z.mod_pow2_bits_high. lia.
Qed.

Lemma byte_ext x y :
  (forall m, 0 <= m < 8 -> Z.testbit (byte x) m = Z.testbit (byte y) m) ->
  byte x = byte y.
Proof.
  intros H. apply Z.bits_inj'. intros m Hm.
  destruct (Z_lt_le_dec m 8); [apply H; lia|].
  by rewrite !byte_high.
Qed.

Lemma written_bit out pin V m :
  0 <= pin < 8 -> 0 <= m < 8 ->
  Z.testbit (written out pin V) m
  = if m =? pin then negb (V =? 0) else Z.testbit out m.
Proof.
  intros Hp Hm. unfold written. destruct (Z.eqb_spec m pin) as [->|Hne].
  - destruct (V =? 0); simpl; [by apply testbit_clear | by apply testbit_set].
  - destruct (V =? 0); [apply testbit_clear_other | apply testbit_set_other]; lia.
Qed.

Lemma written_byte out pin V : byte (written out pin V) = written out pin V.
Proof.
  unfold written, byte. destruct (V =? 0); apply Z.mod_small; apply Z.mod_pos_bound; lia.
Qed.

Lemma written_ext x y :
  (forall m, 0 <= m < 8 -> Z.testbit x m = Z.testbit y m) ->
  byte x = x -> byte y = y -> x = y.
Proof.
  intros H Hx Hy. rewrite <- Hx, <- Hy. apply byte_ext.
  intros m Hm. rewrite Hx, Hy. by apply H.
Qed.

Lemma write_latch d vpin V :
  0 <= vpin - _firstVpin d < 8 ->
  (_write vpin V d).1 = set_out (written (_portOutputState d) (vpin - _firstVpin d) V) d.
Proof. intros Hp. destruct (write_spec d vpin V Hp) as [Hw _]. by rewrite Hw. Qed.

(** X12.  Writes to the lines of one device: the last value written to a
    line is the one the latch keeps, whatever was written to that line
    before; writes to two different lines can be made in either order with
    the same device as a result; and a write changes nothing of the device
    but the latch. *)
Theorem write_algebra (d : Device) (a b Va Vb : Z) :
  0 <= a - _firstVpin d < 8 -> 0 <= b - _firstVpin d < 8 ->
  (_write a Vb (_write a Va d).1).1 = (_write a Vb d).1 /\
  (a <> b ->
   (_write b Vb (_write a Va d).1).1 = (_write a Va (_write b Vb d).1).1) /\
  (_write a Va d).1 = set_out (_portOutputState (_write a Va d).1) d.
Proof.
  intros Ha Hb. rewrite (write_latch d a Va Ha), (write_latch d b Vb Hb).
  rewrite (write_latch d a Vb Ha).
  rewrite !write_latch by done. simpl. unfold set_out. simpl.
  split; [|split; [|done]].
  - f_equal. apply written_ext; [|apply written_byte..].
    intros m Hm. rewrite !written_bit by done. by destruct (m =? a - _firstVpin d).
  - intros Hab. f_equal. apply written_ext; [|apply written_byte..].
    intros m Hm. rewrite !written_bit by done.
    destruct (Z.eqb_spec m (a - _firstVpin d)), (Z.eqb_spec m (b - _firstVpin d));
      try done. lia.
Qed.

Lemma write_algebra_witness :
  (_write 100 0 (_write 100 1 ex_dev).1).1 = (_write 100 0 ex_dev).1 /\
  (100 <> 103 ->
   (_write 103 0 (_write 100 1 ex_dev).1).1 = (_write 100 1 (_write 103 0 ex_dev).1).1) /\
  (_write 100 1 ex_dev).1 = set_out (_portOutputState (_write 100 1 ex_dev).1) ex_dev.
Proof. apply (write_algebra ex_dev 100 103 1 0); simpl; lia. Defined.

(** ** Repeated reads *)

Section Reads.

Variable I2C_STATUS_OK : Z.

(** X13.  Once a line has been read, reading it again, whatever the bus
    would answer, makes no bus call, leaves the device as it is and returns
    the value the first read returned.  A read never clears a bit of the
    latch and changes nothing of the device but the latch and the input
    sample. *)
Theorem read_settles (d : Device) (vpin : Z) (reply reply2 : Z * Z) :
  0 <= vpin - _firstVpin d < 8 ->
  let r := _read I2C_STATUS_OK vpin reply d in
  _read I2C_STATUS_OK vpin reply2 r.1.2 = (r.1.1, r.1.2, []) /\
  (forall m, 0 <= m < 8 -> Z.testbit (_portOutputState d) m = true ->
             Z.testbit (_portOutputState r.1.2) m = true) /\
  r.1.2 = set_in (_portInputState r.1.2) (set_out (_portOutputState r.1.2) d).
Proof.
  intros Hp r. subst r.
  destruct (Z.testbit (_portOutputState d) (vpin - _firstVpin d)) eqn:Hbit.
  - rewrite (read_released I2C_STATUS_OK d vpin reply Hp Hbit). simpl.
    split; [by apply read_released|]. split; [done | by destruct d].
  - rewrite (read_driven I2C_STATUS_OK d vpin reply Hp Hbit). simpl.
    split; [|split; [|done]].
    + rewrite (read_released I2C_STATUS_OK _ vpin reply2); [done | done |].
      simpl. by apply testbit_set.
    + intros m Hm Hset. destruct (decide (m = vpin - _firstVpin d)) as [->|Hne].
      * by apply testbit_set.
      * rewrite testbit_set_other by lia. done.
Qed.

(** X14.  When the transaction of a read fails, the read returns 1 and the
    input sample is all ones: every line of the device whose latch bit is
    set then reads 1, with no bus call, until a scan or a read refreshes
    the sample. *)
Theorem read_failure (d : Device) (vpin : Z) (reply : Z * Z) :
  0 <= vpin - _firstVpin d < 8 ->
  Z.testbit (_portOutputState d) (vpin - _firstVpin d) = false ->
  reply.1 <> I2C_STATUS_OK ->
  let r := _read I2C_STATUS_OK vpin reply d in
  r.1.1 = 1 /\ _portInputState r.1.2 = 255 /\
  (forall vpin2 reply2,
     0 <= vpin2 - _firstVpin d < 8 ->
     Z.testbit (_portOutputState r.1.2) (vpin2 - _firstVpin d) = true ->
     _read I2C_STATUS_OK vpin2 reply2 r.1.2 = (1, r.1.2, [])).
Proof.
  intros Hp Hbit Hfail r. subst r.
  rewrite (read_driven I2C_STATUS_OK d vpin reply Hp Hbit).
  assert (Hs : sampled I2C_STATUS_OK reply = 255).
  { unfold sampled. by destruct (Z.eqb_spec reply.1 I2C_STATUS_OK). }
  rewrite Hs. simpl. split; [|split; [done|]].
  - change 255 with (Z.ones 8). rewrite Z.ones_spec_low by lia. done.
  - intros vpin2 reply2 Hp2 Hbit2.
    rewrite (read_released I2C_STATUS_OK _ vpin2 reply2); [| done | done].
    simpl. change 255 with (Z.ones 8). rewrite Z.ones_spec_low by lia. done.
Qed.

End Reads.

Lemma read_settles_witness :
  _read 0 103 (4, 0) (_read 0 103 (0, 247) ex_dev).1.2
  = ((_read 0 103 (0, 247) ex_dev).1.1, (_read 0 103 (0, 247) ex_dev).1.2, []).
Proof.
  destruct (read_settles 0 ex_dev 103 (0, 247) (4, 0)) as (H & _); [simpl; lia|].
  exact H.
Defined.

Lemma read_failure_witness :
  (_read 0 103 (4, 0) ex_dev).1.1 = 1 /\
  _portInputState (_read 0 103 (4, 0) ex_dev).1.2 = 255 /\
  _read 0 103 (0, 0) (_read 0 103 (4, 0) ex_dev).1.2
  = (1, (_read 0 103 (4, 0) ex_dev).1.2, []).
Proof.
  destruct (read_failure 0 ex_dev 103 (4, 0)) as (H1 & H2 & H3);
    [simpl; lia | reflexivity | discriminate |].
  split; [exact H1|]. split; [exact H2|].
  apply (H3 103 (0, 0)); [simpl; lia | reflexivity].
Defined.

(** ** Runs of the poller *)

Section Poll.

Variable I2C_STATUS_OK : Z.
Variable inputBuffer_size : Z.

#[local] Abbreviation loop := (_loop I2C_STATUS_OK inputBuffer_size).
#[local] Abbreviation run := (PCF8574.run I2C_STATUS_OK inputBuffer_size).

Lemma loop_polite now d :
  params_ok inputBuffer_size d ->
  Forall (polite inputBuffer_size d) (loop now d).2 /\
  same_port d (loop now d).1 /\
  params_ok inputBuffer_size (loop now d).1.
Proof.
  unfold params_ok, polite, same_port, _loop, loop_completion, loop_admission, tick_elapsed.
  intros Hok. destruct (rb_busy (requestBlock d)); [by repeat split|].
  destruct (_deviceState d) eqn:Hs;
    destruct (rb_status (requestBlock d) =? I2C_STATUS_OK); simpl;
    match goal with
    | |- context [?a >? ?b] => destruct (a >? b)
    end; simpl; rewrite ?Hs; simpl;
    (split; [repeat (apply Forall_cons; split; [try rewrite Hok by auto; auto 6|]);
             apply Forall_nil_2|]);
    (split; [done|]);
    (intros [H|H]; try discriminate H; simpl; try done; apply Hok; auto).
Qed.

Lemma bus_update_facts t d :
  same_port d (bus_update t d) /\
  _deviceState (bus_update t d) = _deviceState d /\
  _portInputState (bus_update t d) = _portInputState d /\
  _lastLoopEntry (bus_update t d) = _lastLoopEntry d /\
  (params_ok inputBuffer_size d -> params_ok inputBuffer_size (bus_update t d)).
Proof. by repeat split. Qed.

Lemma polite_same_port d d' op :
  same_port d d' -> polite inputBuffer_size d' op -> polite inputBuffer_size d op.
Proof. unfold polite. intros (_ & _ & -> & -> & _). done. Qed.

Lemma same_port_trans d1 d2 d3 : same_port d1 d2 -> same_port d2 d3 -> same_port d1 d3.
Proof.
  unfold same_port. intros (H1 & H2 & H3 & H4 & H5) (K1 & K2 & K3 & K4 & K5).
  repeat split; congruence.
Qed.

(** X15.  Polling a device whose request block is set up for reads
    whenever a read is due, for any number of calls and whatever the bus
    does in between: the only bus calls made are the latch byte written to
    the device's address, a zero-length write queued and a read of the input
    buffer queued; the latch, the address, the pins and the tick interval
    are never changed. *)
Theorem poll_traffic (ticks : list Tick) : forall d,
  params_ok inputBuffer_size d ->
  Forall (fun e => polite inputBuffer_size d e.2) (run ticks d).2 /\
  same_port d (run ticks d).1 /\
  params_ok inputBuffer_size (run ticks d).1.
Proof.
  induction ticks as [|t ticks IH]; intros d Hok; simpl.
  - split; [apply Forall_nil_2|]. by repeat split.
  - destruct (bus_update_facts t d) as (Hsp0 & _ & _ & _ & Hok0).
    destruct (loop_polite (t_now t) (bus_update t d) (Hok0 Hok)) as (Hp & Hsp1 & Hok1).
    destruct (loop (t_now t) (bus_update t d)) as [d1 ops]. simpl in *.
    destruct (IH d1 Hok1) as (Hlog & Hsp2 & Hok2).
    destruct (PCF8574.run I2C_STATUS_OK inputBuffer_size ticks d1) as [d2 log]. simpl in *.
    assert (Hsp : same_port d d1) by (by eapply same_port_trans).
    split; [|split; [by eapply same_port_trans | done]].
    apply Forall_app. split.
    + apply Forall_forall. intros e He. apply list_elem_of_fmap in He as (op & -> & Hop).
      simpl. rewrite Forall_forall in Hp. apply (polite_same_port _ _ _ Hsp0). by apply Hp.
    + eapply Forall_impl; [exact Hlog|]. intros e He. by apply (polite_same_port _ _ _ Hsp).
Qed.

Ltac fields :=
  cbn [bus_update requestBlock rb_busy rb_status rb_params _deviceState _lastLoopEntry
       _portTickTime _I2CAddress _portOutputState _portInputState inputBuffer
       _firstVpin _nPins set_last set_state set_params set_in set_out fst snd].

Lemma loop_offline now d :
  offline d ->
  (rb_busy (requestBlock d) = false -> rb_status (requestBlock d) <> I2C_STATUS_OK) ->
  offline (loop now d).1 /\
  _portInputState (loop now d).1 = _portInputState d /\
  Forall (fun op => op = I2C_queue (WriteParams (_I2CAddress d) [])) (loop now d).2.
Proof.
  unfold offline, _loop, loop_completion, loop_admission, tick_elapsed.
  intros Hoff Hfail. destruct (rb_busy (requestBlock d)).
  { split; [done|]. split; [done | apply Forall_nil_2]. }
  specialize (Hfail eq_refl). apply Z.eqb_neq in Hfail. rewrite Hfail.
  destruct Hoff as [Hs|Hs]; rewrite Hs; simpl;
    match goal with
    | |- context [?a >? ?b] => destruct (a >? b)
    end; simpl; rewrite ?Hs; simpl;
    (split; [auto|]); (split; [done|]);
    repeat (apply Forall_cons; split; [done|]); apply Forall_nil_2.
Qed.

(** X16.  A device that is waiting to probe or probing, polled while every
    request that finishes reports an error: it stays waiting to probe or
    probing, its input sample is not touched, and nothing reaches the bus
    but queued probes of its own address. *)
Theorem offline_stays (ticks : list Tick) : forall d,
  offline d ->
  Forall (fun t => t_busy t = false -> t_status t <> I2C_STATUS_OK) ticks ->
  offline (run ticks d).1 /\
  _portInputState (run ticks d).1 = _portInputState d /\
  Forall (fun e => e.2 = I2C_queue (WriteParams (_I2CAddress d) [])) (run ticks d).2.
Proof.
  induction ticks as [|t ticks IH]; intros d Hoff Hfail; simpl.
  - split; [done|]. split; [done | apply Forall_nil_2].
  - apply Forall_cons in Hfail as [Ht Hfail].
    destruct (loop_offline (t_now t) (bus_update t d) Hoff Ht) as (Hoff1 & Hin1 & Hops).
    assert (Hparams : params_ok inputBuffer_size (bus_update t d)).
    { intros [H|H]; destruct Hoff as [Ho|Ho]; simpl in H; congruence. }
    destruct (loop_polite (t_now t) (bus_update t d) Hparams) as (_ & Hsp & _).
    destruct (loop (t_now t) (bus_update t d)) as [d1 ops]. simpl in *.
    destruct (IH d1 Hoff1 Hfail) as (Hoff2 & Hin2 & Hlog).
    destruct (PCF8574.run I2C_STATUS_OK inputBuffer_size ticks d1) as [d2 log]. simpl in *.
    split; [done|]. split; [congruence|].
    apply Forall_app. split.
    + apply Forall_forall. intros e He. apply list_elem_of_fmap in He as (op & -> & Hop).
      simpl. rewrite Forall_forall in Hops. by apply Hops.
    + destruct Hsp as (_ & _ & Haddr & _). simpl in Haddr. by rewrite <- Haddr.
Qed.

(** X17.  Recovery, call by call.  A dormant device whose tick interval
    has elapsed queues a probe; when that probe has succeeded and a tick
    interval has elapsed again, the next call writes the latch byte to the
    device and queues a read; when that read has succeeded, the call after
    it takes the buffer as the input sample.  The latch byte sent is the one
    the device held all along. *)
Theorem recovery_cycle (d : Device) (t1 t2 t3 : Tick) :
  _deviceState d = DEVSTATE_DORMANT ->
  t_busy t1 = false -> t_busy t2 = false -> t_busy t3 = false ->
  ulong (t_now t1 - _lastLoopEntry d) > _portTickTime d ->
  ulong (t_now t2 - t_now t1) > _portTickTime d ->
  t_status t2 = I2C_STATUS_OK -> t_status t3 = I2C_STATUS_OK ->
  let r := run [t1; t2; t3] d in
  _portInputState r.1 = t_buffer t3 /\
  _portOutputState r.1 = _portOutputState d /\
  (_deviceState r.1 = DEVSTATE_NORMAL \/ _deviceState r.1 = DEVSTATE_SCANNING) /\
  exists rest,
    r.2 = [(t_now t1, I2C_queue (WriteParams (_I2CAddress d) []));
           (t_now t2, I2C_write (_I2CAddress d) [_portOutputState d]);
           (t_now t2, I2C_queue (ReadParams (_I2CAddress d) inputBuffer_size))] ++ rest.
Proof.
  intros Hs Hb1 Hb2 Hb3 Hk1 Hk2 Hok2 Hok3 r. apply Z.gtb_gt in Hk1, Hk2.
  set (d1 := set_last (t_now t1)
               (set_state DEVSTATE_PROBING
                  (set_params (WriteParams (_I2CAddress d) []) (bus_update t1 d)))).
  set (d2 := set_last (t_now t2)
               (set_state DEVSTATE_SCANNING
                  (set_state DEVSTATE_NORMAL
                     (set_params (ReadParams (_I2CAddress d) inputBuffer_size)
                        (bus_update t2 d1))))).
  set (d3 := set_state DEVSTATE_NORMAL (set_in (t_buffer t3) (bus_update t3 d2))).
  assert (H1 : loop (t_now t1) (bus_update t1 d)
               = (d1, [I2C_queue (WriteParams (_I2CAddress d) [])])).
  { unfold _loop, loop_completion, loop_admission, tick_elapsed. fields.
    rewrite Hb1, Hs. fields. by rewrite Hk1, Hs. }
  assert (H2 : loop (t_now t2) (bus_update t2 d1)
               = (d2, [I2C_write (_I2CAddress d) [_portOutputState d];
                       I2C_queue (ReadParams (_I2CAddress d) inputBuffer_size)])).
  { unfold _loop, loop_completion, loop_admission, tick_elapsed. subst d1. fields.
    rewrite Hb2, Hok2, Z.eqb_refl. fields. by rewrite Hk2. }
  assert (H3 : loop (t_now t3) (bus_update t3 d2) = loop_admission (t_now t3) d3).
  { unfold _loop, loop_completion. subst d3 d2. fields.
    rewrite Hb3, Hok3, Z.eqb_refl. by destruct (loop_admission (t_now t3) _). }
  subst r. cbn [PCF8574.run]. rewrite H1, H2, H3.
  unfold loop_admission, tick_elapsed.
  destruct (ulong (t_now t3 - _lastLoopEntry d3) >? _portTickTime d3); simpl;
    (split; [done|]); (split; [done|]); (split; [auto|]); eexists; reflexivity.
Qed.

(** X18.  The tick test survives the wrap-around of the microsecond clock:
    when the reference time was taken at real time [T1] and the call comes
    at real time [T2], less than 2^32 microseconds later, the test passes
    exactly when more than a tick interval of real time has gone by. *)
Theorem tick_wrap_safe (d : Device) (T1 T2 : Z) :
  _lastLoopEntry d = ulong T1 ->
  T1 <= T2 -> T2 - T1 < 2 ^ 32 ->
  tick_elapsed (ulong T2) d = (T2 - T1 >? _portTickTime d).
Proof.
  intros Hl Hle Hlt. unfold tick_elapsed. rewrite Hl. f_equal.
  unfold ulong. rewrite <- Zminus_mod. apply Z.mod_small. lia.
Qed.

End Poll.

Lemma offline_stays_witness :
  offline (PCF8574.run 0 1 [mkTick 1600 false 4 0; mkTick 1900 false 4 0; mkTick 2200 true 0 0]
             (ex_probing 4)).1 /\
  _portInputState
    (PCF8574.run 0 1 [mkTick 1600 false 4 0; mkTick 1900 false 4 0; mkTick 2200 true 0 0]
       (ex_probing 4)).1 = 255 /\
  Forall (fun e => e.2 = I2C_queue (WriteParams 32 []))
    (PCF8574.run 0 1 [mkTick 1600 false 4 0; mkTick 1900 false 4 0; mkTick 2200 true 0 0]
       (ex_probing 4)).2.
Proof.
  apply (offline_stays 0 1 [mkTick 1600 false 4 0; mkTick 1900 false 4 0; mkTick 2200 true 0 0]
           (ex_probing 4)).
  - right. reflexivity.
  - repeat (apply Forall_cons; split; [simpl; intros; discriminate|]). apply Forall_nil_2.
Defined.

Lemma recovery_cycle_witness :
  let r := PCF8574.run 0 1 [mkTick 1600 false 4 0; mkTick 2200 false 0 0; mkTick 2300 false 0 90]
             (set_state DEVSTATE_DORMANT (ex_probing 4)) in
  _portInputState r.1 = 90 /\
  _portOutputState r.1 = 8 /\
  (_deviceState r.1 = DEVSTATE_NORMAL \/ _deviceState r.1 = DEVSTATE_SCANNING) /\
  exists rest,
    r.2 = [(1600, I2C_queue (WriteParams 32 []));
           (2200, I2C_write 32 [8]);
           (2200, I2C_queue (ReadParams 32 1))] ++ rest.
Proof.
  apply (recovery_cycle 0 1 (set_state DEVSTATE_DORMANT (ex_probing 4))
           (mkTick 1600 false 4 0) (mkTick 2200 false 0 0) (mkTick 2300 false 0 90));
    reflexivity.
Defined.

Lemma tick_wrap_safe_witness :
  tick_elapsed (ulong (2 ^ 32 + 100)) (set_last (ulong (2 ^ 32 - 500)) ex_dev)
  = (2 ^ 32 + 100 - (2 ^ 32 - 500) >? 500).
Proof.
  apply (tick_wrap_safe (set_last (ulong (2 ^ 32 - 500)) ex_dev) (2 ^ 32 - 500) (2 ^ 32 + 100));
    [reflexivity | lia | lia].
Defined.

Lemma poll_traffic_witness :
  Forall (fun e => polite 1 (ex_scanning 0) e.2)
    (PCF8574.run 0 1 [mkTick 1200 false 4 0; mkTick 1600 false 4 0; mkTick 2200 false 0 0]
       (ex_scanning 0)).2 /\
  same_port (ex_scanning 0)
    (PCF8574.run 0 1 [mkTick 1200 false 4 0; mkTick 1600 false 4 0; mkTick 2200 false 0 0]
       (ex_scanning 0)).1 /\
  params_ok 1
    (PCF8574.run 0 1 [mkTick 1200 false 4 0; mkTick 1600 false 4 0; mkTick 2200 false 0 0]
       (ex_scanning 0)).1.
Proof.
  apply (poll_traffic 0 1 [mkTick 1200 false 4 0; mkTick 1600 false 4 0; mkTick 2200 false 0 0]
           (ex_scanning 0)).
  intros _. reflexivity.
Defined.

End PCF8574More.
